(** * RC5 block cipher (RC5.cpp): a shallow embedding and its properties

    The C++ source is one class template [RC5<w, r, b>] with static
    member functions, and a small trait [WordT<w>] that picks the word
    type and the two magic constants.  Words are unsigned machine
    integers; here they are integers in [0, 2^w) and every conversion to
    the word type is written out as a reduction modulo [2^w].

    Two things in the source are not plain arithmetic and are modelled
    as such: a shift whose count reaches the width of its operand (see
    [shift_sem]), and a loop whose [uint8_t] counter can wrap (see
    [encode_rounds]). *)

From Stdlib Require Import ZArith List Lia Bool.
Import ListNotations.
Local Open Scope Z_scope.

(** ** Outcomes of a run

    Most of the code is total, but three things can go wrong and the
    properties below are about exactly those:
    - an expression whose behaviour the language leaves undefined (a
      shift by at least the width of its promoted left operand, an array
      index out of bounds);
    - a use the compiler refuses ([static_assert], the fixed size of
      [std::array]);
    - a loop that is still running when the fuel given to it is spent. *)

Inductive outcome (A : Type) : Type :=
| Ok (a : A)
| Undefined
| Rejected
| OutOfFuel.

Arguments Ok {A} a.
Arguments Undefined {A}.
Arguments Rejected {A}.
Arguments OutOfFuel {A}.

Definition bind {A B : Type} (m : outcome A) (k : A -> outcome B) : outcome B :=
  match m with
  | Ok a => k a
  | Undefined => Undefined
  | Rejected => Rejected
  | OutOfFuel => OutOfFuel
  end.

Notation "x <- m ;; k" := (bind m (fun x => k))
  (at level 61, m at next level, right associativity).
Notation "' p <- m ;; k" := (bind m (fun x => match x with p => k end))
  (at level 61, p pattern, m at next level, right associativity).

(** [returned o] is the value a run came back with, if it came back. *)
Definition returned {A : Type} (o : outcome A) : option A :=
  match o with
  | Ok a => Some a
  | _ => None
  end.

(** [agrees o1 o2]: what [o1] returned, [o2] returns. *)
Definition agrees {A : Type} (o1 o2 : outcome A) : Prop :=
  forall v, o1 = Ok v -> o2 = Ok v.

(** ** Arrays

    [std::array] and the byte streams are lists; [operator[]] outside
    the bounds is undefined. *)

Definition idx (l : list Z) (i : Z) : outcome Z :=
  if i <? 0 then Undefined
  else match nth_error l (Z.to_nat i) with
       | Some v => Ok v
       | None => Undefined
       end.

Fixpoint update (l : list Z) (n : nat) (v : Z) : option (list Z) :=
  match l, n with
  | [], _ => None
  | _ :: l', O => Some (v :: l')
  | x :: l', S n' =>
      match update l' n' v with
      | Some l'' => Some (x :: l'')
      | None => None
      end
  end.

Definition set_idx (l : list Z) (i : Z) (v : Z) : outcome (list Z) :=
  if i <? 0 then Undefined
  else match update l (Z.to_nat i) v with
       | Some l' => Ok l'
       | None => Undefined
       end.

(** ** Shifts

    [E1 << E2] and [E1 >> E2] are computed in the promoted type of [E1]
    and are undefined when [E2] is at least its width.  What a processor
    does with such a count is not left open though: it either uses the
    count modulo the width (x86-64, AArch64) or shifts every bit out
    (32-bit ARM, constant folders).  [Standard] follows the language
    rule, [Machine m] one of the two processors. *)

Inductive machine : Type := Masking | Flushing.

Inductive shift_sem : Type :=
| Standard
| Machine (m : machine).

Definition wide_shift (sem : shift_sem) (pw : Z) (op : Z -> Z -> Z)
    (x n : Z) : outcome Z :=
  match sem with
  | Standard => Undefined
  | Machine Masking => Ok (op x (n mod pw))
  | Machine Flushing => Ok 0
  end.

(** [shl sem pw x n] is [x << n] on a [pw]-bit operand, [shr] is
    [x >> n].  The operand is held as its [pw]-bit pattern.  A
    [uint16_t] is shifted as a non-negative [int]: it is below [2^16]
    and the counts here are at most 16, so the result of [<<] fits the
    32 bits of [unsigned int], which is all the language asks of a left
    shift of a signed operand, and the conversion back to [uint16_t]
    keeps its low 16 bits. *)
Definition shl (sem : shift_sem) (pw x n : Z) : outcome Z :=
  if (0 <=? n) && (n <? pw) then Ok (Z.shiftl x n mod 2 ^ pw)
  else wide_shift sem pw (fun a k => Z.shiftl a k mod 2 ^ pw) x n.

Definition shr (sem : shift_sem) (pw x n : Z) : outcome Z :=
  if (0 <=? n) && (n <? pw) then Ok (Z.shiftr x n)
  else wide_shift sem pw Z.shiftr x n.

(** ** WordT: the supported word widths and their constants *)

Inductive width : Type := W16 | W32 | W64.

Module WordT.

(** [WordT<w>::type] is [uint16_t], [uint32_t] or [uint64_t]. *)
Definition bits (W : width) : Z :=
  match W with
  | W16 => 16
  | W32 => 32
  | W64 => 64
  end.

Definition P (W : width) : Z :=
  match W with
  | W16 => 0xb7e1
  | W32 => 0xb7e15163
  | W64 => 0xb7e151628aed2a6b
  end.

Definition Q (W : width) : Z :=
  match W with
  | W16 => 0x9e37
  | W32 => 0x9e3779b9
  | W64 => 0x9e3779b97f4a7c15
  end.

(** The template argument [w] is a [uint8_t]; only 16, 32 and 64 have
    a specialisation with a usable [type]. *)
Definition of_bits (w : Z) : option width :=
  if w =? 16 then Some W16
  else if w =? 32 then Some W32
  else if w =? 64 then Some W64
  else None.

(** Width of the type an operand of type [WordT<w>::type] is promoted
    to before a shift or an addition: [uint16_t] becomes a 32-bit
    [int], the other two stay as they are. *)
Definition promoted (W : width) : Z :=
  match W with
  | W16 => 32
  | W32 => 32
  | W64 => 64
  end.

End WordT.

Definition to_u8 (x : Z) : Z := x mod 2 ^ 8.

(** ** The cipher *)

Section RC5.

Variable sem : shift_sem.
Variable W : width.
Variables r b : Z.

Definition w : Z := WordT.bits W.

(** Conversion to [Word]. *)
Definition to_word (x : Z) : Z := x mod 2 ^ w.

(** [u = ceil(w / 8)]: the division is an integer one, so the ceiling
    has nothing left to round. *)
Definition u : Z := w / 8.

Definition t : Z := 2 * (r + 1).

Definition P : Z := WordT.P W.
Definition Q : Z := WordT.Q W.

(** *** Utility functions *)

(** [x << (y & (w - 1)) | x >> (w - (y & (w - 1)))]; the arguments are
    bound to [const Word &]. *)
Definition left_shift (x y : Z) : outcome Z :=
  let x := to_word x in
  let y := to_word y in
  hi <- shl sem (WordT.promoted W) x (Z.land y (w - 1)) ;;
  lo <- shr sem (WordT.promoted W) x (w - Z.land y (w - 1)) ;;
  Ok (to_word (Z.lor hi lo)).

(** [x >> (y & (w - 1)) | x << (w - (y & (w - 1)))]. *)
Definition right_shift (x y : Z) : outcome Z :=
  let x := to_word x in
  let y := to_word y in
  lo <- shr sem (WordT.promoted W) x (Z.land y (w - 1)) ;;
  hi <- shl sem (WordT.promoted W) x (w - Z.land y (w - 1)) ;;
  Ok (to_word (Z.lor lo hi)).

(** The loop of [packWord]: [n] iterations are left, [i] is the
    counter.  [word = (word << 8) + input_stream[start + u - i]]. *)
Fixpoint packWord_loop (input_stream : list Z) (start : Z)
    (n : nat) (i : Z) (word : Z) : outcome Z :=
  match n with
  | O => Ok word
  | S n' =>
      hi <- shl sem (WordT.promoted W) word 8 ;;
      byte <- idx input_stream (start + u - i) ;;
      packWord_loop input_stream start n' (i + 1) (to_word (hi + byte))
  end.

(** [for (auto i = 1; i <= u; ++i)], from [Word word{}]. *)
Definition packWord (input_stream : list Z) (start : Z) : outcome Z :=
  packWord_loop input_stream start (Z.to_nat u) 1 0.

(** The loop of [unpackWord]:
    [outputStream[start + i] = (word & (0xFFull << i * 8)) >> (i * 8)],
    the mask being an [unsigned long long]. *)
Fixpoint unpackWord_loop (start : Z) (word : Z)
    (n : nat) (i : Z) (outputStream : list Z) : outcome (list Z) :=
  match n with
  | O => Ok outputStream
  | S n' =>
      mask <- shl sem 64 0xFF (i * 8) ;;
      byte <- shr sem 64 (Z.land word mask) (i * 8) ;;
      out <- set_idx outputStream (start + i) (to_u8 byte) ;;
      unpackWord_loop start word n' (i + 1) out
  end.

(** [for (auto i = 0; i < u; ++i)]. *)
Definition unpackWord (outputStream : list Z) (start : Z) (word : Z)
    : outcome (list Z) :=
  unpackWord_loop start word (Z.to_nat u) 0 outputStream.

(** *** Key schedule *)

(** [c = ceil(max<double>(b, 1) / u)], stored in a [uint8_t].  The
    quotient of two small integers by a power of two is exact in
    [double], so the ceiling is the integer one. *)
Definition c : Z := to_u8 ((Z.max b 1 + u - 1) / u).

(** [for (int i = b - 1; i >= 0; --i) L[i / u] = (L[i / u] << 8) + K[i]]:
    [n] is [i + 1]. *)
Fixpoint fill_L (K : list Z) (n : nat) (L : list Z) : outcome (list Z) :=
  match n with
  | O => Ok L
  | S n' =>
      let i := Z.of_nat n' in
      l <- idx L (i / u) ;;
      hi <- shl sem (WordT.promoted W) l 8 ;;
      k <- idx K i ;;
      L' <- set_idx L (i / u) (to_word (hi + k)) ;;
      fill_L K n' L'
  end.

(** [for (int i = 1; i < t; ++i) S[i] = S[i - 1] + Q]: [n] iterations
    are left. *)
Fixpoint fill_S (n : nat) (i : Z) (St : list Z) : outcome (list Z) :=
  match n with
  | O => Ok St
  | S n' =>
      prev <- idx St (i - 1) ;;
      St' <- set_idx St i (to_word (prev + Q)) ;;
      fill_S n' (i + 1) St'
  end.

(** The mixing loop, [n] iterations left:
    [A = S[i] = left_shift(S[i] + A + B, 3)],
    [B = L[j] = left_shift(L[j] + A + B, A + B)],
    [i = (i + 1) % t], [j = (j + 1) % c]. *)
Fixpoint mix (n : nat) (St L : list Z) (i j A B : Z) : outcome (list Z) :=
  match n with
  | O => Ok St
  | S n' =>
      s <- idx St i ;;
      A' <- left_shift (s + A + B) 3 ;;
      St' <- set_idx St i A' ;;
      l <- idx L j ;;
      B' <- left_shift (l + A' + B) (A' + B) ;;
      L' <- set_idx L j B' ;;
      mix n' St' L' ((i + 1) mod t) ((j + 1) mod c) A' B'
  end.

(** The L-table of a key: [std::array<Word, c> L{}] filled from the
    last key byte to the first. *)
Definition key_words (K : list Z) : outcome (list Z) :=
  fill_L K (Z.to_nat b) (repeat 0 (Z.to_nat c)).

(** The S-table before mixing. *)
Definition initial_S : outcome (list Z) :=
  St <- set_idx (repeat 0 (Z.to_nat t)) 0 P ;;
  fill_S (Z.to_nat (t - 1)) 1 St.

Definition setupS (K : list Z) : outcome (list Z) :=
  L <- key_words K ;;
  St <- initial_S ;;
  mix (Z.to_nat (3 * Z.max t c)) St L 0 0 0 0.

(** *** Block transforms *)

(** The loop of [encodeWords], [for (uint8_t i = 1; i <= r; ++i)]:
    the counter is a [uint8_t], so [++i] wraps at 256 and nothing in the
    text of the loop bounds the number of passes.  One unit of fuel pays
    for one test of [i <= r]; [r + 1] units are enough when the loop
    ends at all. *)
Fixpoint encode_rounds (fuel : nat) (St : list Z) (i A B : Z)
    : outcome (Z * Z) :=
  match fuel with
  | O => OutOfFuel
  | S fuel' =>
      if i <=? r then
        x <- left_shift (Z.lxor A B) B ;;
        s <- idx St (2 * i) ;;
        let A := to_word (x + s) in
        y <- left_shift (Z.lxor B A) A ;;
        s' <- idx St (2 * i + 1) ;;
        let B := to_word (y + s') in
        encode_rounds fuel' St (to_u8 (i + 1)) A B
      else Ok (A, B)
  end.

Definition encodeWords (fuel : nat) (K : list Z) (A B : Z)
    : outcome (Z * Z) :=
  St <- setupS K ;;
  s0 <- idx St 0 ;;
  let A := to_word (A + s0) in
  s1 <- idx St 1 ;;
  let B := to_word (B + s1) in
  encode_rounds fuel St 1 A B.

(** The loop of [decodeWords], [for (uint8_t i = r; i > 0; --i)]: the
    counter only goes down, so the recursion is on the counter
    itself. *)
Fixpoint decode_rounds (n : nat) (St : list Z) (A B : Z)
    : outcome (Z * Z) :=
  match n with
  | O => Ok (A, B)
  | S n' =>
      let i := Z.of_nat n in
      s' <- idx St (2 * i + 1) ;;
      y <- right_shift (B - s') A ;;
      let B := to_word (Z.lxor y A) in
      s <- idx St (2 * i) ;;
      x <- right_shift (A - s) B ;;
      let A := to_word (Z.lxor x B) in
      decode_rounds n' St A B
  end.

Definition decodeWords (K : list Z) (A B : Z) : outcome (Z * Z) :=
  St <- setupS K ;;
  '(A, B) <- decode_rounds (Z.to_nat r) St A B ;;
  s1 <- idx St 1 ;;
  let B := to_word (B - s1) in
  s0 <- idx St 0 ;;
  let A := to_word (A - s0) in
  Ok (A, B).

(** What the types ask of the arguments: [Key] is
    [array<uint8_t, b>], and the [static_assert] wants a stream of
    [u * 2] elements. *)
Definition accepted (K stream : list Z) : bool :=
  (Z.of_nat (length K) =? b) && (Z.of_nat (length stream) =? u * 2).

Definition encode (fuel : nat) (K plaintext : list Z) : outcome (list Z) :=
  if accepted K plaintext then
    let ciphertext := repeat 0 (length plaintext) in
    A <- packWord plaintext 0 ;;
    B <- packWord plaintext u ;;
    '(A, B) <- encodeWords fuel K A B ;;
    ciphertext <- unpackWord ciphertext 0 A ;;
    ciphertext <- unpackWord ciphertext u B ;;
    Ok ciphertext
  else Rejected.

Definition decode (K ciphertext : list Z) : outcome (list Z) :=
  if accepted K ciphertext then
    let plaintext := repeat 0 (length ciphertext) in
    A <- packWord ciphertext 0 ;;
    B <- packWord ciphertext u ;;
    '(A, B) <- decodeWords K A B ;;
    plaintext <- unpackWord plaintext 0 A ;;
    plaintext <- unpackWord plaintext u B ;;
    Ok plaintext
  else Rejected.

End RC5.

(** ** Rotations of an [n]-bit value

    What "rotate [x] left by [k]" means for an [n]-bit [x] and
    [0 <= k < n], written with the same two shifts but on unbounded
    integers, where no shift is out of range.  [rotl_bits] and
    [rotr_bits] below say which bit goes where. *)

Definition rotl (n x k : Z) : Z :=
  Z.lor (Z.shiftl x k) (Z.shiftr x (n - k)) mod 2 ^ n.

Definition rotr (n x k : Z) : Z :=
  Z.lor (Z.shiftr x k) (Z.shiftl x (n - k)) mod 2 ^ n.

(** ** Bytes and little-endian words *)

(** The values of [Word]. *)
Definition word (W : width) (x : Z) : Prop := 0 <= x < 2 ^ w W.

(** The streams hold [uint8_t]. *)
Definition bytes (l : list Z) : Prop := Forall (fun x => 0 <= x < 256) l.

(** The word whose [i]-th least significant byte is the [i]-th element
    of the list. *)
Fixpoint le_word (bs : list Z) : Z :=
  match bs with
  | [] => 0
  | x :: bs' => x + 256 * le_word bs'
  end.

(** The [n] low bytes of a word, least significant first. *)
Fixpoint le_bytes (n : nat) (x : Z) : list Z :=
  match n with
  | O => []
  | S n' => x mod 256 :: le_bytes n' (x / 256)
  end.

(** The [n] elements of a stream from position [start] on. *)
Definition slice (l : list Z) (start : Z) (n : Z) : list Z :=
  firstn (Z.to_nat n) (skipn (Z.to_nat start) l).

(** ** The key schedule in the words of the specification

    A second, independent definition, to compare [setupS] with: total
    functions on lists, the rotation of section 4.3 and arithmetic
    modulo [2^w]. *)

Section Specification.

Variable W : width.
Variables r b : Z.

(** [rotateLeft(x, n)] rotates the w-bit value [x] left by [n mod w]
    bit positions; [rotateRight] is the mirror. *)
Definition rotateLeft (x n : Z) : Z := rotl (w W) (x mod 2 ^ w W) (n mod w W).
Definition rotateRight (x n : Z) : Z := rotr (w W) (x mod 2 ^ w W) (n mod w W).

(** [c = ceil(max(b, 1) / u)]. *)
Definition spec_c : Z := (Z.max b 1 + u W - 1) / u W.

(** The L-table: word [q] packs the [u] key bytes from position
    [q * u] on, little-endian; bytes past the end of the key count as
    zero. *)
Definition spec_L (K : list Z) : list Z :=
  map (fun q => le_word (slice K (Z.of_nat q * u W) (u W)))
      (seq 0 (Z.to_nat spec_c)).

(** [first], [first + Q], [first + 2Q], ... : [n] words. *)
Fixpoint arith_table (n : nat) (first : Z) : list Z :=
  match n with
  | O => []
  | S n' => first :: arith_table n' ((first + Q W) mod 2 ^ w W)
  end.

(** [l[i] = v] on a list. *)
Definition assign (l : list Z) (i : Z) (v : Z) : list Z :=
  match update l (Z.to_nat i) v with
  | Some l' => l'
  | None => l
  end.

Record mixing : Type := Mixing {
  mix_S : list Z;
  mix_L : list Z;
  mix_A : Z;
  mix_B : Z;
  mix_i : Z;
  mix_j : Z
}.

(** One mixing iteration:
    [A = S[i] = rotateLeft(S[i] + A + B, 3)],
    [B = L[j] = rotateLeft(L[j] + A + B, (A + B) mod w)],
    [i = (i + 1) mod t], [j = (j + 1) mod c]. *)
Definition mix_step (st : mixing) : mixing :=
  let A := rotateLeft (nth (Z.to_nat (mix_i st)) (mix_S st) 0
                       + mix_A st + mix_B st) 3 in
  let B := rotateLeft (nth (Z.to_nat (mix_j st)) (mix_L st) 0
                       + A + mix_B st) ((A + mix_B st) mod w W) in
  {| mix_S := assign (mix_S st) (mix_i st) A;
     mix_L := assign (mix_L st) (mix_j st) B;
     mix_A := A;
     mix_B := B;
     mix_i := (mix_i st + 1) mod t r;
     mix_j := (mix_j st + 1) mod spec_c |}.

Fixpoint mix_iter (n : nat) (st : mixing) : mixing :=
  match n with
  | O => st
  | S n' => mix_iter n' (mix_step st)
  end.

(** [S[0] = P], [S[i] = S[i-1] + Q] for [i = 1..t-1], then
    [3 * max(t, c)] mixing iterations from [A = B = i = j = 0]. *)
Definition spec_setupS (K : list Z) : list Z :=
  mix_S (mix_iter (Z.to_nat (3 * Z.max (t r) spec_c))
           {| mix_S := arith_table (Z.to_nat (t r)) (P W);
              mix_L := spec_L K;
              mix_A := 0; mix_B := 0; mix_i := 0; mix_j := 0 |}).

End Specification.

(** ** The test vectors of the source *)

Module test1.
Definition key : list Z :=
  [0x00; 0x01; 0x02; 0x03; 0x04; 0x05; 0x06; 0x07;
   0x08; 0x09; 0x0A; 0x0B; 0x0C; 0x0D; 0x0E; 0x0F].
Definition plaintext : list Z :=
  [0x00; 0x11; 0x22; 0x33; 0x44; 0x55; 0x66; 0x77].
Definition ciphertext : list Z :=
  [0x2D; 0xDC; 0x14; 0x9B; 0xCF; 0x08; 0x8B; 0x9E].
End test1.

Module test2.
Definition key : list Z :=
  [0x2B; 0xD6; 0x45; 0x9F; 0x82; 0xC5; 0xB3; 0x00;
   0x95; 0x2C; 0x49; 0x10; 0x48; 0x81; 0xFF; 0x48].
Definition plaintext : list Z :=
  [0xEA; 0x02; 0x47; 0x14; 0xAD; 0x5C; 0x4D; 0x84].
Definition ciphertext : list Z :=
  [0x11; 0xE4; 0x3B; 0x86; 0xD2; 0x31; 0xEA; 0x64].
End test2.

Module test3.
Definition key : list Z := test1.key.
Definition plaintext : list Z :=
  [0x96; 0x95; 0x0D; 0xDA; 0x65; 0x4A; 0x3D; 0x62].
Definition ciphertext : list Z :=
  [0x00; 0x11; 0x22; 0x33; 0x44; 0x55; 0x66; 0x77].
End test3.

Module test4.
Definition key : list Z := test2.key.
Definition plaintext : list Z :=
  [0x63; 0x8B; 0x3A; 0x5E; 0xF7; 0x2B; 0x66; 0x3F].
Definition ciphertext : list Z :=
  [0xEA; 0x02; 0x47; 0x14; 0xAD; 0x5C; 0x4D; 0x84].
End test4.

Module test5.
Definition key : list Z :=
  [0x00; 0x01; 0x02; 0x03; 0x04; 0x05; 0x06; 0x07;
   0x08; 0x09; 0x0A; 0x0B; 0x0C; 0x0D; 0x0E; 0x0F;
   0x10; 0x11; 0x12; 0x13; 0x14; 0x15; 0x16; 0x17].
Definition plaintext : list Z :=
  [0x00; 0x01; 0x02; 0x03; 0x04; 0x05; 0x06; 0x07;
   0x08; 0x09; 0x0A; 0x0B; 0x0C; 0x0D; 0x0E; 0x0F].
Definition ciphertext : list Z :=
  [0xA4; 0x67; 0x72; 0x82; 0x0E; 0xDB; 0xCE; 0x02;
   0x35; 0xAB; 0xEA; 0x32; 0xAE; 0x71; 0x78; 0xDA].
End test5.

Module test6.
Definition key : list Z := [].
Definition plaintext : list Z := test5.plaintext.
End test6.

(** ** constexpr_compare

    The comparison the tests use: unequal sizes first, then element by
    element up to the first difference. *)

(** [for (int i = 0; i < c1.size(); ++i) if (c1[i] != c2[i]) return false;]:
    [n] iterations are left. *)
Fixpoint compare_loop (c1 c2 : list Z) (n : nat) (i : Z) : outcome bool :=
  match n with
  | O => Ok true
  | S n' =>
      a <- idx c1 i ;;
      b <- idx c2 i ;;
      if negb (a =? b) then Ok false
      else compare_loop c1 c2 n' (i + 1)
  end.

Definition constexpr_compare (c1 c2 : list Z) : outcome bool :=
  if negb (Z.of_nat (length c1) =? Z.of_nat (length c2)) then Ok false
  else compare_loop c1 c2 (length c1) 0.

(** * Properties *)

Section Rotation.

Variable n : Z.
Hypothesis n_pos : 0 < n.

Lemma testbit_above (x i : Z) :
  0 <= x < 2 ^ n -> n <= i -> Z.testbit x i = false.
Proof.
  intros Hx Hi.
  rewrite <- (Z.mod_small x (2 ^ n)) by exact Hx.
  apply Z.mod_pow2_bits_high. lia.
Qed.

Lemma rotl_range (x k : Z) : 0 <= rotl n x k < 2 ^ n.
Proof. unfold rotl. apply Z.mod_pos_bound. apply Z.pow_pos_nonneg; lia. Qed.

Lemma rotr_range (x k : Z) : 0 <= rotr n x k < 2 ^ n.
Proof. unfold rotr. apply Z.mod_pos_bound. apply Z.pow_pos_nonneg; lia. Qed.

Lemma mod_wrap_down (i k : Z) :
  0 <= i < n -> 0 <= k < n ->
  (i - k) mod n = if k <=? i then i - k else i - k + n.
Proof.
  intros Hi Hk. destruct (Z.leb_spec k i).
  - apply Z.mod_small. lia.
  - symmetry. apply (Z.mod_unique _ _ (-1)); lia.
Qed.

Lemma mod_wrap_up (i k : Z) :
  0 <= i < n -> 0 <= k < n ->
  (i + k) mod n = if i + k <? n then i + k else i + k - n.
Proof.
  intros Hi Hk. destruct (Z.ltb_spec (i + k) n).
  - apply Z.mod_small. lia.
  - symmetry. apply (Z.mod_unique _ _ 1); lia.
Qed.

(** Bit [i] of [rotl n x k] is bit [(i - k) mod n] of [x]. *)
Lemma rotl_bits (x k i : Z) :
  0 <= x < 2 ^ n -> 0 <= k < n -> 0 <= i < n ->
  Z.testbit (rotl n x k) i = Z.testbit x ((i - k) mod n).
Proof.
  intros Hx Hk Hi. unfold rotl.
  rewrite Z.mod_pow2_bits_low by lia.
  rewrite Z.lor_spec, Z.shiftl_spec, Z.shiftr_spec by lia.
  rewrite mod_wrap_down by lia.
  destruct (Z.leb_spec k i).
  - rewrite (testbit_above x (i + (n - k))) by lia.
    apply orb_false_r.
  - rewrite (Z.testbit_neg_r x (i - k)) by lia.
    simpl. f_equal. lia.
Qed.

(** Bit [i] of [rotr n x k] is bit [(i + k) mod n] of [x]. *)
Lemma rotr_bits (x k i : Z) :
  0 <= x < 2 ^ n -> 0 <= k < n -> 0 <= i < n ->
  Z.testbit (rotr n x k) i = Z.testbit x ((i + k) mod n).
Proof.
  intros Hx Hk Hi. unfold rotr.
  rewrite Z.mod_pow2_bits_low by lia.
  rewrite Z.lor_spec, Z.shiftl_spec, Z.shiftr_spec by lia.
  rewrite mod_wrap_up by lia.
  destruct (Z.ltb_spec (i + k) n).
  - rewrite (Z.testbit_neg_r x (i - (n - k))) by lia.
    apply orb_false_r.
  - rewrite (testbit_above x (i + k)) by lia.
    simpl. f_equal. lia.
Qed.

(** Two [n]-bit values with the same low [n] bits are equal. *)
Lemma word_bits_inj (x y : Z) :
  0 <= x < 2 ^ n -> 0 <= y < 2 ^ n ->
  (forall i, 0 <= i < n -> Z.testbit x i = Z.testbit y i) -> x = y.
Proof.
  intros Hx Hy H. apply Z.bits_inj'. intros i Hi.
  destruct (Z.lt_ge_cases i n).
  - apply H. lia.
  - rewrite !testbit_above by lia. reflexivity.
Qed.

Lemma rotr_rotl (x k : Z) :
  0 <= x < 2 ^ n -> 0 <= k < n -> rotr n (rotl n x k) k = x.
Proof.
  intros Hx Hk. apply word_bits_inj; [apply rotr_range | exact Hx |].
  intros i Hi.
  rewrite rotr_bits by (auto using rotl_range).
  rewrite rotl_bits by (auto; apply Z.mod_pos_bound; lia).
  f_equal. rewrite Zminus_mod_idemp_l.
  replace (i + k - k) with i by lia. apply Z.mod_small. lia.
Qed.

Lemma rotl_rotr (x k : Z) :
  0 <= x < 2 ^ n -> 0 <= k < n -> rotl n (rotr n x k) k = x.
Proof.
  intros Hx Hk. apply word_bits_inj; [apply rotl_range | exact Hx |].
  intros i Hi.
  rewrite rotl_bits by (auto using rotr_range).
  rewrite rotr_bits by (auto; apply Z.mod_pos_bound; lia).
  f_equal. rewrite Zplus_mod_idemp_l.
  replace (i - k + k) with i by lia. apply Z.mod_small. lia.
Qed.

Lemma rotl_0 (x : Z) : 0 <= x < 2 ^ n -> rotl n x 0 = x.
Proof.
  intros Hx. apply word_bits_inj; [apply rotl_range | exact Hx |].
  intros i Hi. rewrite rotl_bits by lia.
  f_equal. rewrite Z.sub_0_r. apply Z.mod_small. lia.
Qed.

Lemma rotr_0 (x : Z) : 0 <= x < 2 ^ n -> rotr n x 0 = x.
Proof.
  intros Hx. apply word_bits_inj; [apply rotr_range | exact Hx |].
  intros i Hi. rewrite rotr_bits by lia.
  f_equal. rewrite Z.add_0_r. apply Z.mod_small. lia.
Qed.

End Rotation.

(** ** Outcomes and arrays *)

Lemma bind_Ok {A B : Type} (m : outcome A) (k : A -> outcome B) (v : B) :
  bind m k = Ok v -> exists a, m = Ok a /\ k a = Ok v.
Proof. destruct m; simpl; intros H; try discriminate. eauto. Qed.

Lemma shl_in_range (sem : shift_sem) (pw x n : Z) :
  0 <= n < pw -> shl sem pw x n = Ok (Z.shiftl x n mod 2 ^ pw).
Proof.
  intros H. unfold shl.
  replace ((0 <=? n) && (n <? pw)) with true; [reflexivity |].
  symmetry. apply andb_true_iff. split; [apply Z.leb_le | apply Z.ltb_lt]; lia.
Qed.

Lemma shr_in_range (sem : shift_sem) (pw x n : Z) :
  0 <= n < pw -> shr sem pw x n = Ok (Z.shiftr x n).
Proof.
  intros H. unfold shr.
  replace ((0 <=? n) && (n <? pw)) with true; [reflexivity |].
  symmetry. apply andb_true_iff. split; [apply Z.leb_le | apply Z.ltb_lt]; lia.
Qed.

(** A shift by exactly the width of the operand. *)
Lemma shl_full (sem : shift_sem) (pw x : Z) :
  0 < pw -> shl sem pw x pw = wide_shift sem pw (fun a k => Z.shiftl a k mod 2 ^ pw) x pw.
Proof.
  intros H. unfold shl. rewrite Z.ltb_irrefl, andb_false_r. reflexivity.
Qed.

Lemma shr_full (sem : shift_sem) (pw x : Z) :
  0 < pw -> shr sem pw x pw = wide_shift sem pw Z.shiftr x pw.
Proof.
  intros H. unfold shr. rewrite Z.ltb_irrefl, andb_false_r. reflexivity.
Qed.

(** ** The two shifts of a rotation, put together *)

Lemma shift_pair_rotl (n pw x s : Z) :
  0 < n <= pw -> 0 <= x < 2 ^ n -> 0 <= s < n ->
  Z.lor (Z.shiftl x s mod 2 ^ pw) (Z.shiftr x (n - s)) mod 2 ^ n = rotl n x s.
Proof.
  intros Hn Hx Hs. unfold rotl. apply Z.bits_inj'. intros i Hi.
  rewrite !Z.testbit_mod_pow2, !Z.lor_spec, Z.testbit_mod_pow2 by lia.
  destruct (Z.ltb_spec i n); [| reflexivity].
  replace (i <? pw) with true by (symmetry; apply Z.ltb_lt; lia).
  reflexivity.
Qed.

Lemma shift_pair_rotr (n pw x s : Z) :
  0 < n <= pw -> 0 <= x < 2 ^ n -> 0 <= s < n ->
  Z.lor (Z.shiftr x s) (Z.shiftl x (n - s) mod 2 ^ pw) mod 2 ^ n = rotr n x s.
Proof.
  intros Hn Hx Hs. unfold rotr. apply Z.bits_inj'. intros i Hi.
  rewrite !Z.testbit_mod_pow2, !Z.lor_spec, Z.testbit_mod_pow2 by lia.
  destruct (Z.ltb_spec i n); [| reflexivity].
  replace (i <? pw) with true by (symmetry; apply Z.ltb_lt; lia).
  reflexivity.
Qed.

(** ** Words *)

(** The widths with a word type are 16, 32 and 64, and no other. *)
Lemma of_bits_Some (n : Z) (W : width) :
  WordT.of_bits n = Some W <-> n = WordT.bits W.
Proof.
  unfold WordT.of_bits.
  destruct (Z.eqb_spec n 16) as [-> | H16];
    [destruct W; simpl; split; congruence |].
  destruct (Z.eqb_spec n 32) as [-> | H32];
    [destruct W; simpl; split; congruence |].
  destruct (Z.eqb_spec n 64) as [-> | H64];
    [destruct W; simpl; split; congruence |].
  destruct W; simpl; split; congruence.
Qed.

Section Words.

Variable W : width.

Lemma w_pos : 0 < w W.
Proof. destruct W; reflexivity. Qed.

Lemma w_le_promoted : w W <= WordT.promoted W.
Proof. destruct W; discriminate. Qed.

Lemma pow_w_pos : 0 < 2 ^ w W.
Proof. apply Z.pow_pos_nonneg; [lia | pose proof w_pos; lia]. Qed.

Lemma to_word_range (x : Z) : 0 <= to_word W x < 2 ^ w W.
Proof. apply Z.mod_pos_bound, pow_w_pos. Qed.

Lemma to_word_small (x : Z) : 0 <= x < 2 ^ w W -> to_word W x = x.
Proof. apply Z.mod_small. Qed.

Lemma to_word_idem (x : Z) : to_word W (to_word W x) = to_word W x.
Proof. apply to_word_small, to_word_range. Qed.

(** [y & (w - 1)] is [y mod w], [w] being a power of two. *)
Lemma land_w_mask (y : Z) : Z.land y (w W - 1) = y mod w W.
Proof.
  destruct W; unfold w; simpl WordT.bits.
  - change (16 - 1) with (Z.ones 4). apply Z.land_ones. lia.
  - change (32 - 1) with (Z.ones 5). apply Z.land_ones. lia.
  - change (64 - 1) with (Z.ones 6). apply Z.land_ones. lia.
Qed.

Lemma amount_range (y : Z) : 0 <= y mod w W < w W.
Proof. apply Z.mod_pos_bound, w_pos. Qed.

(** On a processor [left_shift] is the rotation to the left by
    [y mod w], whatever the amount. *)
Lemma left_shift_machine (m : machine) (x y : Z) :
  left_shift (Machine m) W x y
  = Ok (rotl (w W) (to_word W x) (to_word W y mod w W)).
Proof.
  unfold left_shift. rewrite land_w_mask.
  pose proof (to_word_range x) as Hx.
  pose proof (amount_range (to_word W y)) as Hs.
  pose proof w_le_promoted as Hpw. pose proof w_pos as Hw.
  set (x' := to_word W x) in *. set (s := to_word W y mod w W) in *.
  rewrite shl_in_range by lia. simpl bind.
  destruct (Z.eq_dec (w W - s) (WordT.promoted W)) as [E | E].
  - assert (s = 0) by lia. subst s. rewrite H in *. rewrite E, shr_full by lia.
    rewrite rotl_0 by (auto using w_pos).
    rewrite Z.shiftl_0_r, (Z.mod_small x') by (split; [lia |];
      apply Z.lt_le_trans with (2 ^ w W); [lia | apply Z.pow_le_mono_r; lia]).
    destruct m; simpl.
    + rewrite Z.mod_same, Z.shiftr_0_r, Z.lor_diag by lia.
      f_equal. apply to_word_small. exact Hx.
    + rewrite Z.lor_0_r. f_equal. apply to_word_small. exact Hx.
  - rewrite shr_in_range by lia. simpl. f_equal.
    apply shift_pair_rotl; lia.
Qed.

(** ... and [right_shift] the rotation to the right. *)
Lemma right_shift_machine (m : machine) (x y : Z) :
  right_shift (Machine m) W x y
  = Ok (rotr (w W) (to_word W x) (to_word W y mod w W)).
Proof.
  unfold right_shift. rewrite land_w_mask.
  pose proof (to_word_range x) as Hx.
  pose proof (amount_range (to_word W y)) as Hs.
  pose proof w_le_promoted as Hpw. pose proof w_pos as Hw.
  set (x' := to_word W x) in *. set (s := to_word W y mod w W) in *.
  rewrite shr_in_range by lia. simpl bind.
  destruct (Z.eq_dec (w W - s) (WordT.promoted W)) as [E | E].
  - assert (s = 0) by lia. subst s. rewrite H in *. rewrite E, shl_full by lia.
    rewrite rotr_0 by (auto using w_pos).
    rewrite Z.shiftr_0_r.
    destruct m; simpl.
    + rewrite Z.mod_same, Z.shiftl_0_r by lia.
      rewrite (Z.mod_small x') by (split; [lia |];
        apply Z.lt_le_trans with (2 ^ w W); [lia | apply Z.pow_le_mono_r; lia]).
      rewrite Z.lor_diag. f_equal. apply to_word_small. exact Hx.
    + rewrite Z.lor_0_r. f_equal. apply to_word_small. exact Hx.
  - rewrite shl_in_range by lia. simpl. f_equal.
    apply shift_pair_rotr; lia.
Qed.

End Words.

(** ** Array accesses inside a list *)

Lemma idx_middle (front back : list Z) (x : Z) :
  idx (front ++ x :: back) (Z.of_nat (length front)) = Ok x.
Proof.
  unfold idx. replace (Z.of_nat (length front) <? 0) with false
    by (symmetry; apply Z.ltb_ge; lia).
  rewrite Nat2Z.id, nth_error_app2, Nat.sub_diag by lia. reflexivity.
Qed.

Lemma update_middle (front back : list Z) (x v : Z) :
  update (front ++ x :: back) (length front) v = Some (front ++ v :: back).
Proof.
  induction front as [| y front IH]; simpl; [reflexivity |].
  rewrite IH. reflexivity.
Qed.

Lemma set_idx_middle (front back : list Z) (x v : Z) :
  set_idx (front ++ x :: back) (Z.of_nat (length front)) v
  = Ok (front ++ v :: back).
Proof.
  unfold set_idx. replace (Z.of_nat (length front) <? 0) with false
    by (symmetry; apply Z.ltb_ge; lia).
  rewrite Nat2Z.id, update_middle. reflexivity.
Qed.

Lemma update_length (l : list Z) (n : nat) (v : Z) (l' : list Z) :
  update l n v = Some l' -> length l' = length l.
Proof.
  revert n l'. induction l as [| x l IH]; intros [| n] l' H; simpl in H;
    try discriminate.
  - inversion H. reflexivity.
  - destruct (update l n v) eqn:E; [| discriminate].
    inversion H. simpl. f_equal. eauto.
Qed.

Lemma set_idx_length (l : list Z) (i v : Z) (l' : list Z) :
  set_idx l i v = Ok l' -> length l' = length l.
Proof.
  unfold set_idx. destruct (i <? 0); [discriminate |].
  destruct (update l (Z.to_nat i) v) eqn:E; [| discriminate].
  intros H. inversion H. subst. eauto using update_length.
Qed.

(** A list cut at two positions. *)
Lemma slice_split (l : list Z) (start n : Z) :
  0 <= start -> 0 <= n -> start + n <= Z.of_nat (length l) ->
  l = firstn (Z.to_nat start) l ++ slice l start n
        ++ skipn (Z.to_nat (start + n)) l
  /\ length (firstn (Z.to_nat start) l) = Z.to_nat start
  /\ length (slice l start n) = Z.to_nat n.
Proof.
  intros Hs Hn Hl. unfold slice. repeat split.
  - rewrite Z2Nat.inj_add by lia.
    rewrite <- (firstn_skipn (Z.to_nat start) l) at 1. f_equal.
    rewrite <- (firstn_skipn (Z.to_nat n) (skipn (Z.to_nat start) l)) at 1.
    f_equal. rewrite skipn_skipn. f_equal. lia.
  - rewrite length_firstn. lia.
  - rewrite length_firstn, length_skipn. lia.
Qed.

(** ** Little-endian words *)

Lemma bytes_app (l1 l2 : list Z) : bytes (l1 ++ l2) <-> bytes l1 /\ bytes l2.
Proof. apply Forall_app. Qed.

Lemma le_word_range (bs : list Z) :
  bytes bs -> 0 <= le_word bs < 256 ^ Z.of_nat (length bs).
Proof.
  induction 1 as [| x bs Hx _ IH]; [simpl; lia |].
  cbn [le_word length]. rewrite Nat2Z.inj_succ, Z.pow_succ_r by lia. lia.
Qed.

Lemma le_bytes_length (n : nat) (x : Z) : length (le_bytes n x) = n.
Proof. revert x. induction n; intros; simpl; auto. Qed.

Lemma le_bytes_bytes (n : nat) (x : Z) : bytes (le_bytes n x).
Proof.
  revert x. induction n as [| n IH]; intros x; simpl; constructor.
  - apply Z.mod_pos_bound. lia.
  - apply IH.
Qed.

Lemma le_bytes_le_word (bs : list Z) :
  bytes bs -> le_bytes (length bs) (le_word bs) = bs.
Proof.
  induction 1 as [| x bs Hx _ IH]; [reflexivity |].
  cbn [le_word length le_bytes].
  rewrite (Z.mul_comm 256), Z.mod_add, Z.div_add, Z.mod_small, Z.div_small
    by lia.
  simpl. rewrite IH. reflexivity.
Qed.

Lemma le_word_le_bytes (n : nat) (x : Z) :
  le_word (le_bytes n x) = x mod 256 ^ Z.of_nat n.
Proof.
  revert x. induction n as [| n IH]; intros x.
  - simpl. rewrite Z.mod_1_r. reflexivity.
  - cbn [le_bytes le_word]. rewrite IH, Nat2Z.inj_succ, Z.pow_succ_r by lia.
    rewrite Z.rem_mul_r by (try apply Z.pow_pos_nonneg; lia). reflexivity.
Qed.

(** ** packWord and unpackWord *)

Section Packing.

Variable sem : shift_sem.
Variable W : width.

Lemma u_bits : 8 * u W = w W.
Proof. destruct W; reflexivity. Qed.

Lemma u_pos : 0 < u W.
Proof. destruct W; reflexivity. Qed.

Lemma pow256_u : 256 ^ u W = 2 ^ w W.
Proof. destruct W; reflexivity. Qed.

Lemma promoted_range : 8 < WordT.promoted W <= 64.
Proof. destruct W; simpl; lia. Qed.

Lemma pow256_le (n : nat) :
  Z.of_nat n <= u W -> 256 ^ Z.of_nat n <= 2 ^ w W.
Proof.
  intros H. rewrite <- pow256_u. apply Z.pow_le_mono_r; lia.
Qed.

Lemma packWord_loop_le (front back pre : list Z) :
  forall (post : list Z) (start i word : Z),
  bytes (pre ++ post) ->
  Z.of_nat (length pre + length post) <= u W ->
  start = Z.of_nat (length front) ->
  i = u W - Z.of_nat (length pre) + 1 ->
  word = le_word post ->
  packWord_loop sem W (front ++ pre ++ post ++ back) start (length pre) i word
  = Ok (le_word (pre ++ post)).
Proof.
  induction pre as [| x pre IH] using rev_ind; intros post start i word Hb Hl Hs Hi Hw.
  - simpl. subst. reflexivity.
  - rewrite length_app in *. simpl length in *.
    replace (length pre + 1)%nat with (S (length pre)) by lia.
    cbn [packWord_loop].
    pose proof promoted_range as Hp.
    rewrite shl_in_range by lia. cbn [bind].
    replace (start + u W - i) with (Z.of_nat (length (front ++ pre)))
      by (rewrite length_app; lia).
    replace (front ++ (pre ++ [x]) ++ post ++ back)
      with ((front ++ pre) ++ x :: (post ++ back))
      by (rewrite <- !app_assoc; reflexivity).
    rewrite idx_middle. cbn [bind].
    replace ((front ++ pre) ++ x :: post ++ back)
      with (front ++ pre ++ (x :: post) ++ back)
      by (rewrite <- !app_assoc; reflexivity).
    rewrite <- app_assoc in Hb |- *. simpl app in Hb |- *.
    apply (IH (x :: post)); try (simpl length; lia); try assumption.
    apply bytes_app in Hb. destruct Hb as [_ Hb].
    pose proof (le_word_range _ Hb) as Hr. inversion Hb as [| ? ? Hx Hpost]. subst.
    pose proof (le_word_range _ Hpost) as Hr'.
    cbn [le_word length] in *.
    pose proof (pow256_le (S (length post))) as Hle.
    pose proof w_le_promoted W as Hwp.
    assert (2 ^ w W <= 2 ^ WordT.promoted W) by (apply Z.pow_le_mono_r; lia).
    rewrite Z.shiftl_mul_pow2 by lia. change (2 ^ 8) with 256.
    rewrite (Z.mod_small (le_word post * 256)) by lia.
    rewrite to_word_small by lia. lia.
Qed.

(** [packWord] returns the little-endian value of the [u] bytes from
    [start] on. *)
Lemma packWord_le (input_stream : list Z) (start : Z) :
  bytes input_stream -> 0 <= start ->
  start + u W <= Z.of_nat (length input_stream) ->
  packWord sem W input_stream start
  = Ok (le_word (slice input_stream start (u W))).
Proof.
  intros Hb Hs Hl. pose proof u_pos as Hu.
  destruct (slice_split input_stream start (u W)) as (E & L1 & L2); try lia.
  assert (Hm : bytes (slice input_stream start (u W))).
  { rewrite E in Hb. apply bytes_app in Hb. destruct Hb as [_ Hb].
    apply bytes_app in Hb. tauto. }
  pose proof (packWord_loop_le (firstn (Z.to_nat start) input_stream)
    (skipn (Z.to_nat (start + u W)) input_stream)
    (slice input_stream start (u W)) [] start 1 0) as H.
  rewrite app_nil_r in H. cbn [app length] in H.
  unfold packWord. rewrite E at 1. rewrite <- L2. apply H; try lia.
  - exact Hm.
  - reflexivity.
Qed.

Lemma extract_byte (word i : Z) :
  0 <= i < 8 ->
  to_u8 (Z.shiftr (Z.land word (Z.shiftl 0xFF (i * 8) mod 2 ^ 64)) (i * 8))
  = (word / 256 ^ i) mod 256.
Proof.
  intros Hi. unfold to_u8. change 256 with (2 ^ 8).
  rewrite <- Z.pow_mul_r by lia.
  apply Z.bits_inj'. intros k Hk.
  rewrite !Z.testbit_mod_pow2 by lia.
  destruct (Z.ltb_spec k 8); [| reflexivity]. cbn [andb].
  rewrite Z.shiftr_spec, Z.land_spec, Z.testbit_mod_pow2 by lia.
  rewrite Z.shiftl_spec, Z.div_pow2_bits by lia.
  replace (k + i * 8 - i * 8) with k by lia.
  change 255 with (Z.ones 8). rewrite Z.ones_spec_low by lia.
  replace (k + i * 8 <? 64) with true by (symmetry; apply Z.ltb_lt; lia).
  rewrite andb_true_r. f_equal. lia.
Qed.

Lemma unpackWord_loop_le (start word : Z) (post : list Z) (n : nat) :
  forall (i : Z) (pre mid : list Z),
  length mid = n -> start + i = Z.of_nat (length pre) ->
  0 <= i -> i + Z.of_nat n <= 8 ->
  unpackWord_loop sem start word n i (pre ++ mid ++ post)
  = Ok (pre ++ le_bytes n (word / 256 ^ i) ++ post).
Proof.
  induction n as [| n IH]; intros i pre mid Hm Hp Hi Hn.
  - destruct mid; [reflexivity | discriminate].
  - destruct mid as [| m mid]; [discriminate |].
    cbn [unpackWord_loop le_bytes].
    rewrite shl_in_range by lia. cbn [bind].
    rewrite shr_in_range by lia. cbn [bind].
    rewrite extract_byte by lia.
    rewrite Hp. cbn [app]. rewrite set_idx_middle. cbn [bind].
    replace (pre ++ (word / 256 ^ i) mod 256 :: mid ++ post)
      with ((pre ++ [(word / 256 ^ i) mod 256]) ++ mid ++ post)
      by (rewrite <- app_assoc; reflexivity).
    rewrite IH; try lia.
    + rewrite <- app_assoc. cbn [app]. do 3 f_equal.
      rewrite Z.pow_add_r, Z.pow_1_r, Z.div_div by (try apply Z.pow_pos_nonneg; lia).
      reflexivity.
    + simpl in Hm. lia.
    + rewrite length_app. simpl length. lia.
Qed.

Lemma u_le_8 : u W <= 8.
Proof. destruct W; discriminate. Qed.

(** [unpackWord] overwrites the [u] elements from [start] on with the
    bytes of the word, least significant first, and nothing else. *)
Lemma unpackWord_le (outputStream : list Z) (start word : Z) :
  0 <= start -> start + u W <= Z.of_nat (length outputStream) ->
  unpackWord sem W outputStream start word
  = Ok (firstn (Z.to_nat start) outputStream
        ++ le_bytes (Z.to_nat (u W)) word
        ++ skipn (Z.to_nat (start + u W)) outputStream).
Proof.
  intros Hs Hl. pose proof u_pos as Hu. pose proof u_le_8 as Hu8.
  destruct (slice_split outputStream start (u W)) as (E & L1 & L2); try lia.
  unfold unpackWord. rewrite E at 1.
  rewrite unpackWord_loop_le; try lia.
  rewrite Z.pow_0_r, Z.div_1_r. reflexivity.
Qed.

End Packing.

(** ** A rotation that came back is undone by the opposite one *)

Section Inverse.

Variable sem : shift_sem.
Variable W : width.

Lemma shl_Ok_machine (m : machine) (pw x n v : Z) :
  shl Standard pw x n = Ok v -> shl (Machine m) pw x n = Ok v.
Proof.
  unfold shl. destruct ((0 <=? n) && (n <? pw)); [trivial | discriminate].
Qed.

Lemma shr_Ok_machine (m : machine) (pw x n v : Z) :
  shr Standard pw x n = Ok v -> shr (Machine m) pw x n = Ok v.
Proof.
  unfold shr. destruct ((0 <=? n) && (n <? pw)); [trivial | discriminate].
Qed.

(** Under the language rule a shift that has a value has its count in
    range, so the same count is in range for the other direction. *)
Lemma shr_Ok_shl (pw x n v y : Z) :
  shr Standard pw x n = Ok v -> shl Standard pw y n = Ok (Z.shiftl y n mod 2 ^ pw).
Proof.
  unfold shr, shl. destruct ((0 <=? n) && (n <? pw)); [reflexivity | discriminate].
Qed.

Lemma shl_Ok_shr (pw x n v y : Z) :
  shl Standard pw x n = Ok v -> shr Standard pw y n = Ok (Z.shiftr y n).
Proof.
  unfold shr, shl. destruct ((0 <=? n) && (n <? pw)); [reflexivity | discriminate].
Qed.

(** Whatever the reading of a wide shift, a [left_shift] that returns,
    returns the rotation. *)
Lemma left_shift_Ok (x y z : Z) :
  left_shift sem W x y = Ok z ->
  z = rotl (w W) (to_word W x) (to_word W y mod w W).
Proof.
  destruct sem as [| m].
  - intros H. pose proof (left_shift_machine W Masking x y) as Hm.
    unfold left_shift in *.
    apply bind_Ok in H. destruct H as (hi & H1 & H).
    apply bind_Ok in H. destruct H as (lo & H2 & H).
    rewrite (shl_Ok_machine Masking _ _ _ _ H1) in Hm.
    cbn [bind] in Hm.
    rewrite (shr_Ok_machine Masking _ _ _ _ H2) in Hm.
    cbn [bind] in Hm. congruence.
  - rewrite left_shift_machine. congruence.
Qed.

Lemma right_shift_Ok (x y z : Z) :
  right_shift sem W x y = Ok z ->
  z = rotr (w W) (to_word W x) (to_word W y mod w W).
Proof.
  destruct sem as [| m].
  - intros H. pose proof (right_shift_machine W Masking x y) as Hm.
    unfold right_shift in *.
    apply bind_Ok in H. destruct H as (lo & H1 & H).
    apply bind_Ok in H. destruct H as (hi & H2 & H).
    rewrite (shr_Ok_machine Masking _ _ _ _ H1) in Hm.
    cbn [bind] in Hm.
    rewrite (shl_Ok_machine Masking _ _ _ _ H2) in Hm.
    cbn [bind] in Hm. congruence.
  - rewrite right_shift_machine. congruence.
Qed.

(** ... and the [right_shift] by the same amount returns too, with the
    operand. *)
Lemma right_shift_left_shift (x y z : Z) :
  left_shift sem W x y = Ok z -> right_shift sem W z y = Ok (to_word W x).
Proof.
  intros H. pose proof (left_shift_Ok _ _ _ H) as Hz.
  pose proof (to_word_range W x) as Hx.
  pose proof (amount_range W (to_word W y)) as Hs.
  assert (Hr : rotr (w W) (to_word W z) (to_word W y mod w W) = to_word W x).
  { subst z. rewrite to_word_small by (apply rotl_range, w_pos).
    apply rotr_rotl; auto using w_pos. }
  destruct sem as [| m].
  - unfold left_shift in H.
    apply bind_Ok in H. destruct H as (hi & H1 & H).
    apply bind_Ok in H. destruct H as (lo & H2 & H).
    pose proof (right_shift_machine W Masking z y) as Hm.
    unfold right_shift in *.
    pose proof (shl_Ok_shr _ _ _ _ (to_word W z) H1) as G1.
    pose proof (shr_Ok_shl _ _ _ _ (to_word W z) H2) as G2.
    rewrite G1. rewrite (shr_Ok_machine Masking _ _ _ _ G1) in Hm.
    cbn [bind] in *.
    rewrite G2. rewrite (shl_Ok_machine Masking _ _ _ _ G2) in Hm.
    cbn [bind] in *. congruence.
  - rewrite right_shift_machine. congruence.
Qed.

Lemma left_shift_right_shift (x y z : Z) :
  right_shift sem W x y = Ok z -> left_shift sem W z y = Ok (to_word W x).
Proof.
  intros H. pose proof (right_shift_Ok _ _ _ H) as Hz.
  pose proof (to_word_range W x) as Hx.
  pose proof (amount_range W (to_word W y)) as Hs.
  assert (Hr : rotl (w W) (to_word W z) (to_word W y mod w W) = to_word W x).
  { subst z. rewrite to_word_small by (apply rotr_range, w_pos).
    apply rotl_rotr; auto using w_pos. }
  destruct sem as [| m].
  - unfold right_shift in H.
    apply bind_Ok in H. destruct H as (lo & H1 & H).
    apply bind_Ok in H. destruct H as (hi & H2 & H).
    pose proof (left_shift_machine W Masking z y) as Hm.
    unfold left_shift in *.
    pose proof (shr_Ok_shl _ _ _ _ (to_word W z) H1) as G1.
    pose proof (shl_Ok_shr _ _ _ _ (to_word W z) H2) as G2.
    rewrite G1. rewrite (shl_Ok_machine Masking _ _ _ _ G1) in Hm.
    cbn [bind] in *.
    rewrite G2. rewrite (shr_Ok_machine Masking _ _ _ _ G2) in Hm.
    cbn [bind] in *. congruence.
  - rewrite left_shift_machine. congruence.
Qed.

Lemma left_shift_range (x y z : Z) :
  left_shift sem W x y = Ok z -> 0 <= z < 2 ^ w W.
Proof.
  intros H. rewrite (left_shift_Ok _ _ _ H). apply rotl_range, w_pos.
Qed.

Lemma right_shift_range (x y z : Z) :
  right_shift sem W x y = Ok z -> 0 <= z < 2 ^ w W.
Proof.
  intros H. rewrite (right_shift_Ok _ _ _ H). apply rotr_range, w_pos.
Qed.

Lemma right_shift_to_word (x y : Z) :
  right_shift sem W (to_word W x) y = right_shift sem W x y.
Proof. unfold right_shift. rewrite to_word_idem. reflexivity. Qed.

Lemma left_shift_to_word (x y : Z) :
  left_shift sem W (to_word W x) y = left_shift sem W x y.
Proof. unfold left_shift. rewrite to_word_idem. reflexivity. Qed.

Lemma lxor_word (a c : Z) :
  0 <= a < 2 ^ w W -> 0 <= c < 2 ^ w W -> to_word W (Z.lxor a c) = Z.lxor a c.
Proof.
  intros Ha Hc. pose proof (w_pos W) as Hw. unfold to_word.
  apply Z.bits_inj'. intros i Hi.
  rewrite Z.testbit_mod_pow2 by lia.
  destruct (Z.ltb_spec i (w W)); [reflexivity |].
  rewrite Z.lxor_spec, !(testbit_above (w W)) by lia. reflexivity.
Qed.

Lemma lxor_cancel (a c : Z) : Z.lxor (Z.lxor a c) c = a.
Proof. rewrite Z.lxor_assoc, Z.lxor_nilpotent, Z.lxor_0_r. reflexivity. Qed.

Lemma add_sub_word (a s : Z) : to_word W (to_word W (a + s) - s) = to_word W a.
Proof.
  unfold to_word. rewrite Zminus_mod_idemp_l. f_equal. lia.
Qed.

Lemma sub_add_word (a s : Z) : to_word W (to_word W (a - s) + s) = to_word W a.
Proof.
  unfold to_word. rewrite Zplus_mod_idemp_l. f_equal. lia.
Qed.

End Inverse.

(** ** The rounds *)

Section Rounds.

Variable sem : shift_sem.
Variable W : width.
Variable r : Z.

(** One pass through the body of the loop of [decodeWords] takes back
    one pass through the body of the loop of [encodeWords]. *)
Lemma round_undone (St : list Z) (i A B x s y s' : Z) :
  word W A -> word W B ->
  left_shift sem W (Z.lxor A B) B = Ok x ->
  idx St (2 * i) = Ok s ->
  left_shift sem W (Z.lxor B (to_word W (x + s))) (to_word W (x + s)) = Ok y ->
  idx St (2 * i + 1) = Ok s' ->
  forall n k,
  Z.of_nat (S n) = i ->
  decode_rounds sem W (S n) St (to_word W (x + s)) (to_word W (y + s')) = k ->
  decode_rounds sem W n St A B = k.
Proof.
  intros HA HB Hx Hs Hy Hs' n k Hn Hk. subst k.
  cbn [decode_rounds]. rewrite Hn, Hs'. cbn [bind].
  set (A1 := to_word W (x + s)) in *.
  assert (HA1 : word W A1) by apply to_word_range.
  rewrite <- right_shift_to_word, add_sub_word, right_shift_to_word.
  rewrite (right_shift_left_shift _ _ _ _ _ Hy). cbn [bind].
  rewrite (lxor_word W B A1), lxor_cancel, (to_word_small W B) by
    (auto; apply lxor_word; auto).
  rewrite Hs. cbn [bind]. unfold A1.
  rewrite <- right_shift_to_word, add_sub_word, right_shift_to_word.
  rewrite (right_shift_left_shift _ _ _ _ _ Hx). cbn [bind].
  rewrite (lxor_word W A B), lxor_cancel, (to_word_small W A) by
    (auto; apply lxor_word; auto).
  reflexivity.
Qed.

(** With [r = 255] the test [i <= r] of the loop of [encodeWords] never
    fails: the loop does not come back, whatever the fuel. *)
Lemma encode_rounds_255 (fuel : nat) :
  forall (St : list Z) (i A B : Z),
  0 <= i < 256 ->
  returned (encode_rounds sem W 255 fuel St i A B) = None.
Proof.
  induction fuel as [| fuel IH]; intros St i A B Hi; [reflexivity |].
  cbn [encode_rounds].
  replace (i <=? 255) with true by (symmetry; apply Z.leb_le; lia).
  destruct (left_shift sem W (Z.lxor A B) B); try reflexivity. cbn [bind].
  destruct (idx St (2 * i)); try reflexivity. cbn [bind].
  destruct (left_shift sem W _ _); try reflexivity. cbn [bind].
  destruct (idx St (2 * i + 1)); try reflexivity. cbn [bind].
  apply IH. apply Z.mod_pos_bound. reflexivity.
Qed.

Hypothesis r_u8 : 0 <= r < 256.

(** From the values the loop of [encodeWords] came back with, the loop
    of [decodeWords] gets to where the former was at counter [i]. *)
Lemma decode_rounds_encode_rounds (fuel : nat) :
  forall (St : list Z) (i A B A' B' : Z),
  1 <= i <= r + 1 -> word W A -> word W B ->
  encode_rounds sem W r fuel St i A B = Ok (A', B') ->
  decode_rounds sem W (Z.to_nat r) St A' B'
  = decode_rounds sem W (Z.to_nat (i - 1)) St A B.
Proof.
  induction fuel as [| fuel IH]; intros St i A B A' B' Hi HA HB H;
    [discriminate |].
  cbn [encode_rounds] in H. destruct (Z.leb_spec i r) as [Hle | Hgt].
  - apply bind_Ok in H. destruct H as (x & Hx & H).
    apply bind_Ok in H. destruct H as (s & Hs & H).
    apply bind_Ok in H. destruct H as (y & Hy & H).
    apply bind_Ok in H. destruct H as (s' & Hs' & H).
    destruct (Z.eq_dec r 255) as [E | E].
    + subst r. pose proof (encode_rounds_255 fuel St (to_u8 (i + 1))
        (to_word W (x + s)) (to_word W (y + s'))) as Hnever.
      rewrite H in Hnever. discriminate Hnever.
      apply Z.mod_pos_bound. reflexivity.
    + unfold to_u8 in H. rewrite Z.mod_small in H by (change (2 ^ 8) with 256; lia).
      apply IH in H; try apply to_word_range; try lia.
      rewrite H. replace (i + 1 - 1) with i by lia.
      symmetry.
      apply (round_undone St i A B x s y s' HA HB Hx Hs Hy Hs' (Z.to_nat (i - 1))).
      * lia.
      * f_equal. lia.
  - inversion H. subst. f_equal. lia.
Qed.

Lemma encode_rounds_word (fuel : nat) :
  forall (St : list Z) (i A B A' B' : Z),
  word W A -> word W B ->
  encode_rounds sem W r fuel St i A B = Ok (A', B') -> word W A' /\ word W B'.
Proof.
  induction fuel as [| fuel IH]; intros St i A B A' B' HA HB H;
    [discriminate |].
  cbn [encode_rounds] in H. destruct (i <=? r).
  - apply bind_Ok in H. destruct H as (x & Hx & H).
    apply bind_Ok in H. destruct H as (s & Hs & H).
    apply bind_Ok in H. destruct H as (y & Hy & H).
    apply bind_Ok in H. destruct H as (s' & Hs' & H).
    apply IH in H; auto; apply to_word_range.
  - inversion H. subst. auto.
Qed.

Variable b : Z.

(** [decodeWords] takes back what [encodeWords] returned. *)
Lemma decodeWords_encodeWords (fuel : nat) (K : list Z) (A B A' B' : Z) :
  word W A -> word W B ->
  encodeWords sem W r b fuel K A B = Ok (A', B') ->
  decodeWords sem W r b K A' B' = Ok (A, B).
Proof.
  intros HA HB H. unfold encodeWords in H. unfold decodeWords.
  apply bind_Ok in H. destruct H as (St & HSt & H).
  apply bind_Ok in H. destruct H as (s0 & Hs0 & H).
  apply bind_Ok in H. destruct H as (s1 & Hs1 & H).
  rewrite HSt. cbn [bind].
  assert (H1 : 1 <= 1 <= r + 1) by lia.
  rewrite (decode_rounds_encode_rounds _ _ _ _ _ _ _ H1
    (to_word_range W _) (to_word_range W _) H).
  cbn [Z.sub Z.to_nat Z.add Z.opp Z.pos_sub decode_rounds bind].
  rewrite Hs1, Hs0. cbn [bind].
  rewrite !add_sub_word, !to_word_small by assumption. reflexivity.
Qed.

Lemma encodeWords_word (fuel : nat) (K : list Z) (A B A' B' : Z) :
  encodeWords sem W r b fuel K A B = Ok (A', B') -> word W A' /\ word W B'.
Proof.
  intros H. unfold encodeWords in H.
  apply bind_Ok in H. destruct H as (St & HSt & H).
  apply bind_Ok in H. destruct H as (s0 & Hs0 & H).
  apply bind_Ok in H. destruct H as (s1 & Hs1 & H).
  apply encode_rounds_word in H; auto; apply to_word_range.
Qed.

End Rounds.

(** ** encode and decode on a block *)

Section Blocks.

Variable sem : shift_sem.
Variable W : width.
Variables r b : Z.

Lemma accepted_true (K stream : list Z) :
  accepted W b K stream = true <->
  Z.of_nat (length K) = b /\ Z.of_nat (length stream) = u W * 2.
Proof.
  unfold accepted. rewrite andb_true_iff, !Z.eqb_eq. reflexivity.
Qed.

(** A block is its two halves. *)
Lemma block_halves (stream : list Z) :
  Z.of_nat (length stream) = u W * 2 ->
  stream = slice stream 0 (u W) ++ slice stream (u W) (u W)
  /\ length (slice stream 0 (u W)) = Z.to_nat (u W)
  /\ length (slice stream (u W) (u W)) = Z.to_nat (u W).
Proof.
  intros Hl. pose proof (u_pos W) as Hu. unfold slice.
  change (Z.to_nat 0) with O. cbn [skipn].
  repeat split.
  - rewrite <- (firstn_skipn (Z.to_nat (u W)) stream) at 1. f_equal.
    symmetry. apply firstn_all2. rewrite length_skipn. lia.
  - rewrite length_firstn. lia.
  - rewrite length_firstn, length_skipn. lia.
Qed.

(** The two [unpackWord] of [encode] and [decode] fill the block with
    the bytes of [A], then those of [B]. *)
Lemma unpack_block (out : list Z) (A B : Z) :
  Z.of_nat (length out) = u W * 2 ->
  (c1 <- unpackWord sem W out 0 A ;;
   c2 <- unpackWord sem W c1 (u W) B ;;
   Ok c2)
  = Ok (le_bytes (Z.to_nat (u W)) A ++ le_bytes (Z.to_nat (u W)) B).
Proof.
  intros Hl. pose proof (u_pos W) as Hu.
  rewrite unpackWord_le by lia. cbn [bind].
  change (Z.to_nat 0) with O. cbn [firstn app]. rewrite Z.add_0_l.
  rewrite unpackWord_le;
    [| lia | rewrite length_app, le_bytes_length, length_skipn; lia].
  cbn [bind]. f_equal.
  rewrite firstn_app, le_bytes_length, Nat.sub_diag. cbn [firstn].
  rewrite app_nil_r, firstn_all2 by (rewrite le_bytes_length; lia).
  f_equal. rewrite skipn_all2, app_nil_r; [reflexivity |].
  rewrite length_app, le_bytes_length, length_skipn. lia.
Qed.

(** [encode] spelled out on the words of the block. *)
Lemma encode_words (fuel : nat) (K plaintext : list Z) :
  bytes plaintext ->
  encode sem W r b fuel K plaintext
  = if accepted W b K plaintext then
      '(A, B) <- encodeWords sem W r b fuel K
                   (le_word (slice plaintext 0 (u W)))
                   (le_word (slice plaintext (u W) (u W))) ;;
      Ok (le_bytes (Z.to_nat (u W)) A ++ le_bytes (Z.to_nat (u W)) B)
    else Rejected.
Proof.
  intros Hb. unfold encode.
  destruct (accepted W b K plaintext) eqn:Hacc; [| reflexivity].
  apply accepted_true in Hacc. destruct Hacc as [HK Hl].
  pose proof (u_pos W) as Hu.
  rewrite !packWord_le by (auto; lia). cbn [bind].
  destruct (encodeWords sem W r b fuel K _ _) as [[A B] | | |]; try reflexivity.
  cbn [bind]. apply unpack_block. rewrite repeat_length. exact Hl.
Qed.

Lemma decode_words (K ciphertext : list Z) :
  bytes ciphertext ->
  decode sem W r b K ciphertext
  = if accepted W b K ciphertext then
      '(A, B) <- decodeWords sem W r b K
                   (le_word (slice ciphertext 0 (u W)))
                   (le_word (slice ciphertext (u W) (u W))) ;;
      Ok (le_bytes (Z.to_nat (u W)) A ++ le_bytes (Z.to_nat (u W)) B)
    else Rejected.
Proof.
  intros Hb. unfold decode.
  destruct (accepted W b K ciphertext) eqn:Hacc; [| reflexivity].
  apply accepted_true in Hacc. destruct Hacc as [HK Hl].
  pose proof (u_pos W) as Hu.
  rewrite !packWord_le by (auto; lia). cbn [bind].
  destruct (decodeWords sem W r b K _ _) as [[A B] | | |]; try reflexivity.
  cbn [bind]. apply unpack_block. rewrite repeat_length. exact Hl.
Qed.

Lemma le_word_word (bs : list Z) :
  bytes bs -> length bs = Z.to_nat (u W) -> word W (le_word bs).
Proof.
  intros Hb Hl. pose proof (le_word_range bs Hb) as H.
  pose proof (u_pos W). unfold word. rewrite <- pow256_u.
  replace (u W) with (Z.of_nat (length bs)) by lia. exact H.
Qed.

Lemma le_word_le_bytes_word (x : Z) :
  word W x -> le_word (le_bytes (Z.to_nat (u W)) x) = x.
Proof.
  intros Hx. pose proof (u_pos W). rewrite le_word_le_bytes, Z2Nat.id by lia.
  rewrite pow256_u. apply Z.mod_small. exact Hx.
Qed.

Lemma slices_of_halves (l1 l2 : list Z) :
  length l1 = Z.to_nat (u W) -> length l2 = Z.to_nat (u W) ->
  slice (l1 ++ l2) 0 (u W) = l1 /\ slice (l1 ++ l2) (u W) (u W) = l2.
Proof.
  intros H1 H2. unfold slice. change (Z.to_nat 0) with O. cbn [skipn].
  split.
  - rewrite <- H1, firstn_app, Nat.sub_diag, firstn_all.
    cbn [firstn]. apply app_nil_r.
  - rewrite <- H1 at 2. rewrite skipn_app, Nat.sub_diag, skipn_all.
    cbn [skipn app]. rewrite <- H2. apply firstn_all.
Qed.

Hypothesis r_u8 : 0 <= r < 256.

(** What [encode] returned, [decode] takes back to the plaintext. *)
Lemma decode_encode (fuel : nat) (K plaintext ciphertext : list Z) :
  bytes plaintext ->
  encode sem W r b fuel K plaintext = Ok ciphertext ->
  decode sem W r b K ciphertext = Ok plaintext.
Proof.
  intros Hb H. rewrite encode_words in H by exact Hb.
  destruct (accepted W b K plaintext) eqn:Hacc; [| discriminate].
  apply accepted_true in Hacc. destruct Hacc as [HK Hl].
  destruct (block_halves plaintext Hl) as (E & L1 & L2).
  assert (Hb' : bytes (slice plaintext 0 (u W))
                /\ bytes (slice plaintext (u W) (u W)))
    by (apply bytes_app; rewrite <- E; exact Hb).
  destruct Hb' as [Hb1 Hb2].
  apply bind_Ok in H. destruct H as ([A' B'] & Henc & H).
  inversion H as [Hct]. clear H.
  pose proof (encodeWords_word _ _ _ _ _ _ _ _ _ _ Henc) as [HA' HB'].
  apply decodeWords_encodeWords in Henc;
    auto using le_word_word.
  rewrite decode_words by (apply bytes_app; split; apply le_bytes_bytes).
  replace (accepted W b K _) with true.
  2:{ symmetry. apply accepted_true. split; [exact HK |].
      rewrite length_app, !le_bytes_length. pose proof (u_pos W). lia. }
  destruct (slices_of_halves (le_bytes (Z.to_nat (u W)) A')
    (le_bytes (Z.to_nat (u W)) B')) as [S1 S2]; try apply le_bytes_length.
  rewrite S1, S2, !le_word_le_bytes_word by assumption.
  rewrite Henc. cbn [bind]. f_equal.
  rewrite <- L1 at 1. rewrite (le_bytes_le_word _ Hb1).
  rewrite <- L2 at 1. rewrite (le_bytes_le_word _ Hb2).
  symmetry. exact E.
Qed.

End Blocks.

(** ** Accesses within the bounds *)

Lemma idx_nth (l : list Z) (i : Z) :
  0 <= i < Z.of_nat (length l) -> idx l i = Ok (nth (Z.to_nat i) l 0).
Proof.
  intros H. unfold idx.
  replace (i <? 0) with false by (symmetry; apply Z.ltb_ge; lia).
  destruct (nth_error l (Z.to_nat i)) as [v |] eqn:E.
  - f_equal. symmetry. apply nth_error_nth. exact E.
  - apply nth_error_None in E. lia.
Qed.

Lemma update_Some (l : list Z) (n : nat) (v : Z) :
  (n < length l)%nat -> exists l', update l n v = Some l'.
Proof.
  revert n. induction l as [| x l IH]; intros [| n] H; simpl in *; try lia.
  - eauto.
  - destruct (IH n) as [l' E]; [lia |]. rewrite E. eauto.
Qed.

Lemma set_idx_assign (l : list Z) (i v : Z) :
  0 <= i < Z.of_nat (length l) -> set_idx l i v = Ok (assign l i v).
Proof.
  intros H. unfold set_idx, assign.
  replace (i <? 0) with false by (symmetry; apply Z.ltb_ge; lia).
  destruct (update_Some l (Z.to_nat i) v) as [l' E]; [lia |].
  rewrite E. reflexivity.
Qed.

Lemma assign_length (l : list Z) (i v : Z) : length (assign l i v) = length l.
Proof.
  unfold assign. destruct (update l (Z.to_nat i) v) eqn:E; [| reflexivity].
  eauto using update_length.
Qed.

(** ** The key schedule *)

Section KeySchedule.

Variable W : width.
Variables r b : Z.

Hypothesis r_u8 : 0 <= r < 256.
Hypothesis b_u8 : 0 <= b < 256.

Lemma u_cases : u W = 2 \/ u W = 4 \/ u W = 8.
Proof. destruct W; auto. Qed.

Lemma spec_c_range : 1 <= spec_c W b <= 128.
Proof.
  unfold spec_c. pose proof u_cases as Hu.
  split.
  - apply Z.div_le_lower_bound; lia.
  - apply Z.div_le_upper_bound; lia.
Qed.

(** The [uint8_t] holds the ceiling without loss. *)
Lemma c_spec : c W b = spec_c W b.
Proof.
  unfold c. fold (spec_c W b). pose proof spec_c_range as H.
  unfold to_u8. apply Z.mod_small. change (2 ^ 8) with 256. lia.
Qed.

Lemma t_range : 2 <= t r <= 512.
Proof. unfold t. lia. Qed.

(** [(x mod 2^w) mod w = x mod w]: the width divides [2^w]. *)
Lemma amount_of_word (y : Z) : to_word W y mod w W = y mod w W.
Proof.
  unfold to_word. apply Z.mod_mod_divide.
  destruct W; [exists (2 ^ 12) | exists (2 ^ 27) | exists (2 ^ 58)]; reflexivity.
Qed.

Lemma left_shift_rotateLeft (m : machine) (x y : Z) :
  left_shift (Machine m) W x y = Ok (rotateLeft W x y).
Proof.
  rewrite left_shift_machine, amount_of_word. reflexivity.
Qed.

Lemma right_shift_rotateRight (m : machine) (x y : Z) :
  right_shift (Machine m) W x y = Ok (rotateRight W x y).
Proof.
  rewrite right_shift_machine, amount_of_word. reflexivity.
Qed.

Lemma rotateLeft_mod (x n : Z) :
  rotateLeft W x (n mod w W) = rotateLeft W x n.
Proof.
  unfold rotateLeft. rewrite Z.mod_mod by (pose proof (w_pos W); lia).
  reflexivity.
Qed.

(** The loop that fills S. *)
Lemma fill_S_arith (n : nat) :
  forall (i x : Z) (pre rest : list Z),
  length rest = n -> i = Z.of_nat (length pre) + 1 ->
  fill_S W n i (pre ++ x :: rest) = Ok (pre ++ arith_table W (S n) x).
Proof.
  induction n as [| n IH]; intros i x pre rest Hn Hi.
  - destruct rest; [reflexivity | discriminate].
  - destruct rest as [| y rest]; [discriminate |].
    cbn [fill_S].
    replace (i - 1) with (Z.of_nat (length pre)) by lia.
    rewrite idx_middle. cbn [bind].
    replace (pre ++ x :: y :: rest) with ((pre ++ [x]) ++ y :: rest)
      by (rewrite <- app_assoc; reflexivity).
    replace i with (Z.of_nat (length (pre ++ [x])))
      by (rewrite length_app; simpl length; lia).
    rewrite set_idx_middle. cbn [bind].
    rewrite IH.
    + rewrite <- app_assoc. reflexivity.
    + simpl in Hn. lia.
    + reflexivity.
Qed.

Lemma initial_S_arith :
  initial_S W r = Ok (arith_table W (Z.to_nat (t r)) (P W)).
Proof.
  pose proof t_range as Ht. unfold initial_S.
  replace (Z.to_nat (t r)) with (S (Z.to_nat (t r - 1))) by lia.
  cbn [repeat]. change (set_idx (0 :: ?l) 0 ?v) with (Ok (v :: l)).
  cbn [bind]. apply (fill_S_arith _ 1 (P W) []).
  - apply repeat_length.
  - reflexivity.
Qed.

Lemma arith_table_length (n : nat) (x : Z) : length (arith_table W n x) = n.
Proof. revert x. induction n; intros; simpl; auto. Qed.

(** The mixing loop, on a processor. *)
Lemma mix_spec (m : machine) (n : nat) :
  forall (St L : list Z) (i j A B : Z),
  Z.of_nat (length St) = t r -> Z.of_nat (length L) = spec_c W b ->
  0 <= i < t r -> 0 <= j < spec_c W b ->
  mix (Machine m) W r b n St L i j A B
  = Ok (mix_S (mix_iter W r b n (Mixing St L A B i j))).
Proof.
  induction n as [| n IH]; intros St L i j A B HS HL Hi Hj; [reflexivity |].
  cbn [mix mix_iter].
  rewrite idx_nth by lia. cbn [bind].
  rewrite left_shift_rotateLeft. cbn [bind].
  rewrite set_idx_assign by lia. cbn [bind].
  rewrite idx_nth by lia. cbn [bind].
  rewrite left_shift_rotateLeft. cbn [bind].
  rewrite set_idx_assign by lia. cbn [bind].
  rewrite c_spec, IH.
  - unfold mix_step. cbn [mix_S mix_L mix_A mix_B mix_i mix_j].
    rewrite rotateLeft_mod. reflexivity.
  - rewrite assign_length. exact HS.
  - rewrite assign_length. exact HL.
  - apply Z.mod_pos_bound. lia.
  - apply Z.mod_pos_bound. lia.
Qed.

End KeySchedule.

(** ** The L-table *)

Lemma nth_map_seq (f : nat -> Z) (n q : nat) (d : Z) :
  (q < n)%nat -> nth q (map f (seq 0 n)) d = f q.
Proof.
  intros H. rewrite (nth_indep _ d (f O)) by (rewrite length_map, length_seq; lia).
  rewrite (map_nth f (seq 0 n) O q), seq_nth by lia. reflexivity.
Qed.

Lemma update_nth (l : list Z) (n : nat) (v : Z) (l' : list Z) :
  update l n v = Some l' ->
  forall k d, nth k l' d = if (k =? n)%nat then v else nth k l d.
Proof.
  revert n l'. induction l as [| x l IH]; intros [| n] l' H k d; simpl in H;
    try discriminate.
  - inversion H. destruct k; reflexivity.
  - destruct (update l n v) eqn:E; [| discriminate]. inversion H.
    destruct k; [reflexivity |]. cbn [nth]. rewrite (IH _ _ E).
    reflexivity.
Qed.

Lemma assign_map_seq (f : nat -> Z) (n q : nat) (v : Z) :
  (q < n)%nat ->
  assign (map f (seq 0 n)) (Z.of_nat q) v
  = map (fun k => if (k =? q)%nat then v else f k) (seq 0 n).
Proof.
  intros H. unfold assign. rewrite Nat2Z.id.
  destruct (update_Some (map f (seq 0 n)) q v) as [l' E];
    [rewrite length_map, length_seq; lia |].
  rewrite E. apply (nth_ext _ _ 0 0).
  - rewrite (update_length _ _ _ _ E), !length_map. reflexivity.
  - intros k Hk. rewrite (update_length _ _ _ _ E), length_map, length_seq in Hk.
    rewrite (update_nth _ _ _ _ E), !nth_map_seq by lia. reflexivity.
Qed.

Lemma skipn_cons_nth (l : list Z) (p : nat) (d : Z) :
  (p < length l)%nat -> skipn p l = nth p l d :: skipn (S p) l.
Proof.
  revert p. induction l as [| x l IH]; intros [| p] H; simpl in *; try lia.
  - reflexivity.
  - apply IH. lia.
Qed.

Lemma bytes_firstn (n : nat) (l : list Z) : bytes l -> bytes (firstn n l).
Proof.
  intros H. rewrite <- (firstn_skipn n l) in H. apply bytes_app in H. tauto.
Qed.

Lemma bytes_skipn (n : nat) (l : list Z) : bytes l -> bytes (skipn n l).
Proof.
  intros H. rewrite <- (firstn_skipn n l) in H. apply bytes_app in H. tauto.
Qed.

Section KeyWords.

Variable sem : shift_sem.
Variable W : width.
Variable K : list Z.
Hypothesis K_bytes : bytes K.
Variable un : nat.
Hypothesis un_u : un = Z.to_nat (u W).

(** Byte [p] of the [q]-th group of [u] key bytes. *)
Lemma chunk_nth (q p : nat) :
  (p < un)%nat ->
  nth p (firstn (un) (skipn (q * un) K)) 0
  = nth (q * un + p) K 0.
Proof.
  intros Hp. rewrite nth_firstn.
  replace (p <? un)%nat with true by (symmetry; apply Nat.ltb_lt; lia).
  apply nth_skipn.
Qed.

(** The table while the loop of [setupS] is at byte [n]: the groups
    above are packed, the one [n] falls in is packed from [n] on, the
    ones below are still zero. *)
Lemma fill_L_words (cn : nat) (n : nat) :
  (n <= length K)%nat -> (length K <= cn * un)%nat ->
  fill_L sem W K n
    (map (fun q => le_word (skipn (n - q * un)
                    (firstn (un) (skipn (q * un) K))))
         (seq 0 cn))
  = Ok (map (fun q => le_word
                    (firstn (un) (skipn (q * un) K)))
         (seq 0 cn)).
Proof.
  pose proof (u_pos W) as Hu. pose proof (u_le_8 W) as Hu8.
  assert (Hun : (0 < un)%nat) by lia.
  induction n as [| n IH]; intros Hn Hc.
  - cbn [fill_L]. f_equal.
  - cbn [fill_L].
    set (q0 := (n / un)%nat). set (p := (n mod un)%nat).
    assert (En : n = (q0 * un + p)%nat)
      by (unfold q0, p; rewrite Nat.mul_comm; apply Nat.div_mod; lia).
    assert (Hp : (p < un)%nat) by (apply Nat.mod_upper_bound; lia).
    assert (Hq0 : (q0 < cn)%nat).
    { destruct (Nat.lt_ge_cases q0 cn) as [| Hge]; [assumption |].
      apply (Nat.mul_le_mono_r _ _ un) in Hge. lia. }
    replace (Z.of_nat n / u W) with (Z.of_nat q0)
      by (unfold q0; rewrite Nat2Z.inj_div, un_u, Z2Nat.id by lia; reflexivity).
    rewrite idx_nth by (rewrite length_map, length_seq; lia). cbn [bind].
    rewrite Nat2Z.id, nth_map_seq by exact Hq0.
    pose proof (promoted_range W) as Hpw.
    rewrite shl_in_range by lia. cbn [bind].
    rewrite idx_nth by lia. cbn [bind]. rewrite Nat2Z.id.
    rewrite set_idx_assign by (rewrite length_map, length_seq; lia).
    cbn [bind]. rewrite assign_map_seq by exact Hq0.
    rewrite <- IH by lia. f_equal. apply map_ext_in. intros q Hq.
    apply in_seq in Hq.
    set (chunk := fun k => firstn un (skipn (k * un) K)).
    change (firstn un (skipn (q0 * un) K)) with (chunk q0).
    change (firstn un (skipn (q * un) K)) with (chunk q).
    assert (Hlen : forall k, (length (chunk k) <= un)%nat)
      by (intros k; unfold chunk; rewrite length_firstn; lia).
    destruct (Nat.eqb_spec q q0) as [-> | Hne].
    + replace (S n - q0 * un)%nat with (S p) by lia.
      replace (n - q0 * un)%nat with p by lia.
      assert (Hpl : (p < length (chunk q0))%nat)
        by (unfold chunk; rewrite length_firstn, length_skipn; lia).
      assert (Hnth : nth p (chunk q0) 0 = nth n K 0)
        by (unfold chunk; rewrite chunk_nth, <- En by exact Hp; reflexivity).
      assert (Hb : bytes (skipn p (chunk q0)))
        by (unfold chunk; auto using bytes_skipn, bytes_firstn).
      pose proof (le_word_range _ Hb) as Hr.
      assert (Hpow : 256 ^ Z.of_nat (length (skipn p (chunk q0))) <= 2 ^ w W).
      { apply pow256_le. rewrite length_skipn. specialize (Hlen q0). lia. }
      rewrite (skipn_cons_nth (chunk q0) p 0) in Hb, Hr, Hpow |- * by exact Hpl.
      rewrite Hnth in *.
      pose proof (Forall_inv Hb) as Hx. pose proof (Forall_inv_tail Hb) as Hrest.
      cbn beta in Hx.
      pose proof (le_word_range _ Hrest) as Hr'.
      cbn [le_word] in Hr |- *.
      pose proof (w_le_promoted W) as Hwp. pose proof (w_pos W) as Hw.
      assert (2 ^ w W <= 2 ^ WordT.promoted W) by (apply Z.pow_le_mono_r; lia).
      rewrite Z.shiftl_mul_pow2 by lia. change (2 ^ 8) with 256.
      rewrite (Z.mod_small (_ * 256)) by lia.
      rewrite to_word_small by lia. lia.
    + f_equal. destruct (Nat.lt_ge_cases q q0) as [Hlt | Hge].
      * assert ((q + 1) * un <= q0 * un)%nat by (apply Nat.mul_le_mono_r; lia).
        rewrite !skipn_all2; [reflexivity | |]; specialize (Hlen q); lia.
      * assert ((q0 + 1) * un <= q * un)%nat by (apply Nat.mul_le_mono_r; lia).
        f_equal. lia.
Qed.

End KeyWords.

Section SetupS.

Variable W : width.
Variables r b : Z.
Variable K : list Z.

Hypothesis r_u8 : 0 <= r < 256.
Hypothesis b_u8 : 0 <= b < 256.
Hypothesis K_length : Z.of_nat (length K) = b.
Hypothesis K_bytes : bytes K.

Lemma map_const_seq (n s : nat) : map (fun _ => 0) (seq s n) = repeat 0 n.
Proof.
  revert s. induction n as [| n IH]; intros s; simpl; [| rewrite IH]; reflexivity.
Qed.

(** [c] words of [u] bytes hold the key. *)
Lemma key_fits : (length K <= Z.to_nat (spec_c W b) * Z.to_nat (u W))%nat.
Proof.
  pose proof (u_pos W) as Hu. pose proof (spec_c_range W b b_u8) as Hc.
  rewrite <- Z2Nat.inj_mul by lia. apply Nat2Z.inj_le.
  rewrite Z2Nat.id by lia. unfold spec_c.
  pose proof (Z.div_mod (Z.max b 1 + u W - 1) (u W)) as E.
  pose proof (Z.mod_pos_bound (Z.max b 1 + u W - 1) (u W) Hu) as Hm.
  rewrite Z.mul_comm. lia.
Qed.

(** The L-table [setupS] builds is the key packed little-endian, word
    by word. *)
Lemma key_words_spec (sem : shift_sem) :
  key_words sem W b K = Ok (spec_L W b K).
Proof.
  pose proof key_fits as Hfit. pose proof (u_pos W) as Hu.
  unfold key_words. rewrite c_spec by assumption.
  set (cn := Z.to_nat (spec_c W b)) in *. set (un := Z.to_nat (u W)) in *.
  replace (Z.to_nat b) with (length K) by lia.
  replace (repeat 0 cn)
    with (map (fun q => le_word (skipn (length K - q * un)
                  (firstn un (skipn (q * un) K)))) (seq 0 cn)).
  - rewrite (fill_L_words sem W K K_bytes un eq_refl cn (length K))
      by (auto; lia).
    f_equal. unfold spec_L. fold cn. apply map_ext. intros q.
    unfold slice. fold un. do 3 f_equal.
    rewrite Z2Nat.inj_mul, Nat2Z.id by lia. reflexivity.
  - rewrite <- map_const_seq with (s := O). apply map_ext. intros q.
    rewrite skipn_all2; [reflexivity |].
    rewrite length_firstn, length_skipn. lia.
Qed.

Lemma spec_L_length : Z.of_nat (length (spec_L W b K)) = spec_c W b.
Proof.
  unfold spec_L. rewrite length_map, length_seq.
  pose proof (spec_c_range W b b_u8). lia.
Qed.

Lemma mix_iter_length (n : nat) :
  forall st, length (mix_S (mix_iter W r b n st)) = length (mix_S st).
Proof.
  induction n as [| n IH]; intros st; [reflexivity |].
  cbn [mix_iter]. rewrite IH. unfold mix_step. cbn [mix_S].
  apply assign_length.
Qed.

Lemma spec_setupS_length : Z.of_nat (length (spec_setupS W r b K)) = t r.
Proof.
  unfold spec_setupS. rewrite mix_iter_length. cbn [mix_S].
  rewrite arith_table_length. pose proof (t_range r r_u8). lia.
Qed.

(** On a processor [setupS] returns, with the table of the
    specification. *)
Lemma setupS_spec (m : machine) :
  setupS (Machine m) W r b K = Ok (spec_setupS W r b K).
Proof.
  pose proof (t_range r r_u8) as Ht. pose proof (spec_c_range W b b_u8) as Hc.
  unfold setupS. rewrite key_words_spec. cbn [bind].
  rewrite initial_S_arith by assumption. cbn [bind].
  rewrite c_spec by assumption.
  rewrite mix_spec; try lia.
  - reflexivity.
  - rewrite arith_table_length. lia.
  - apply spec_L_length.
Qed.

End SetupS.

(** ** Runs that return *)

Section Returns.

Variable m : machine.
Variable W : width.
Variables r b : Z.

Hypothesis r_below : 0 <= r < 255.

(** Below 255 rounds the counter never wraps and [r + 1] tests of
    [i <= r] are enough. *)
Lemma encode_rounds_returns (St : list Z) (n : nat) :
  forall (i A B : Z),
  Z.of_nat (length St) = t r -> 1 <= i -> i + Z.of_nat n = r + 1 ->
  exists A' B', encode_rounds (Machine m) W r (S n) St i A B = Ok (A', B').
Proof.
  induction n as [| n IH]; intros i A B HS Hi Hn.
  - cbn [encode_rounds].
    replace (i <=? r) with false by (symmetry; apply Z.leb_gt; lia). eauto.
  - remember (S n) as fuel. cbn [encode_rounds].
    replace (i <=? r) with true by (symmetry; apply Z.leb_le; lia).
    unfold t in HS.
    rewrite left_shift_rotateLeft. cbn [bind].
    rewrite idx_nth by lia. cbn [bind].
    rewrite left_shift_rotateLeft. cbn [bind].
    rewrite idx_nth by lia. cbn [bind].
    unfold to_u8. rewrite Z.mod_small by (change (2 ^ 8) with 256; lia).
    subst fuel. apply IH; unfold t; lia.
Qed.

Hypothesis b_u8 : 0 <= b < 256.

(** On a processor and below 255 rounds [encode] returns for every key
    and block of the right sizes, and [decode] gives the block back. *)
Lemma decode_encode_returns (K plaintext : list Z) :
  Z.of_nat (length K) = b -> bytes K ->
  Z.of_nat (length plaintext) = u W * 2 -> bytes plaintext ->
  exists ciphertext,
    encode (Machine m) W r b (S (Z.to_nat r)) K plaintext = Ok ciphertext
    /\ decode (Machine m) W r b K ciphertext = Ok plaintext.
Proof.
  intros HK HKb Hl Hb.
  assert (r_u8 : 0 <= r < 256) by lia.
  assert (Henc : exists ciphertext,
    encode (Machine m) W r b (S (Z.to_nat r)) K plaintext = Ok ciphertext).
  { rewrite encode_words by exact Hb.
    replace (accepted W b K plaintext) with true
      by (symmetry; apply accepted_true; auto).
    unfold encodeWords.
    rewrite (setupS_spec W r b K r_u8 b_u8 HK HKb). cbn [bind].
    pose proof (spec_setupS_length W r b K r_u8) as HS.
    pose proof (t_range r r_u8) as Ht.
    rewrite !idx_nth by lia. cbn [bind].
    destruct (encode_rounds_returns (spec_setupS W r b K) (Z.to_nat r) 1
      (to_word W (le_word (slice plaintext 0 (u W))
                  + nth (Z.to_nat 0) (spec_setupS W r b K) 0))
      (to_word W (le_word (slice plaintext (u W) (u W))
                  + nth (Z.to_nat 1) (spec_setupS W r b K) 0)))
      as (A' & B' & E); try lia.
    rewrite E. cbn [bind]. eauto. }
  destruct Henc as [ciphertext Henc]. exists ciphertext. split; [exact Henc |].
  eapply decode_encode; eauto.
Qed.

End Returns.

(** ** Rotation by a multiple of the width, read by the language rule *)

Section ZeroRotation.

Variable W : width.
Hypothesis wide : w W = WordT.promoted W.

Lemma left_shift_standard_zero (x y : Z) :
  y mod w W = 0 -> left_shift Standard W x y = Undefined.
Proof.
  intros Hy. pose proof (w_pos W) as Hw. unfold left_shift.
  rewrite land_w_mask, amount_of_word, Hy, Z.sub_0_r.
  rewrite shl_in_range by lia. cbn [bind].
  rewrite wide, shr_full by lia. reflexivity.
Qed.

Lemma right_shift_standard_zero (x y : Z) :
  y mod w W = 0 -> right_shift Standard W x y = Undefined.
Proof.
  intros Hy. pose proof (w_pos W) as Hw. unfold right_shift.
  rewrite land_w_mask, amount_of_word, Hy, Z.sub_0_r.
  rewrite shr_in_range by lia. cbn [bind].
  rewrite wide, shl_full by lia. reflexivity.
Qed.

End ZeroRotation.

(** Where the language rule gives the two shifts a value, it is the
    rotation: always for 16-bit words, which are shifted as 32-bit
    [int], and for an amount that is not a multiple of the width
    otherwise. *)
Lemma left_shift_standard (W : width) (x y : Z) :
  W = W16 \/ y mod w W <> 0 ->
  left_shift Standard W x y = Ok (rotateLeft W x y).
Proof.
  intros H. rewrite <- (left_shift_rotateLeft W Masking).
  pose proof (amount_range W y) as Hs. pose proof (w_le_promoted W) as Hp.
  assert (Hr : 0 <= w W - y mod w W < WordT.promoted W).
  { destruct H as [-> | H]; [| lia].
    change (w W16) with 16 in *. change (WordT.promoted W16) with 32. lia. }
  unfold left_shift. rewrite land_w_mask, amount_of_word.
  rewrite !shl_in_range by lia. cbn [bind].
  rewrite !shr_in_range by lia. reflexivity.
Qed.

Lemma right_shift_standard (W : width) (x y : Z) :
  W = W16 \/ y mod w W <> 0 ->
  right_shift Standard W x y = Ok (rotateRight W x y).
Proof.
  intros H. rewrite <- (right_shift_rotateRight W Masking).
  pose proof (amount_range W y) as Hs. pose proof (w_le_promoted W) as Hp.
  assert (Hr : 0 <= w W - y mod w W < WordT.promoted W).
  { destruct H as [-> | H]; [| lia].
    change (w W16) with 16 in *. change (WordT.promoted W16) with 32. lia. }
  unfold right_shift. rewrite land_w_mask, amount_of_word.
  rewrite !shr_in_range by lia. cbn [bind].
  rewrite !shl_in_range by lia. reflexivity.
Qed.

(** ** encode after decode *)

Section Redone.

Variable sem : shift_sem.
Variable W : width.
Variables r b : Z.

Hypothesis r_below : 0 <= r < 255.

(** One pass through the body of the loop of [encodeWords] takes back
    one pass through the body of the loop of [decodeWords]. *)
Lemma round_redone (St : list Z) (i A1 B1 s' y s x : Z) :
  word W A1 -> word W B1 ->
  idx St (2 * i + 1) = Ok s' ->
  right_shift sem W (B1 - s') A1 = Ok y ->
  idx St (2 * i) = Ok s ->
  right_shift sem W (A1 - s) (to_word W (Z.lxor y A1)) = Ok x ->
  1 <= i <= r ->
  forall fuel,
  encode_rounds sem W r (S fuel) St i
    (to_word W (Z.lxor x (to_word W (Z.lxor y A1))))
    (to_word W (Z.lxor y A1))
  = encode_rounds sem W r fuel St (i + 1) A1 B1.
Proof.
  intros HA1 HB1 Hs' Hy Hs Hx Hi fuel.
  pose proof (right_shift_range _ _ _ _ _ Hy) as Hyw.
  pose proof (right_shift_range _ _ _ _ _ Hx) as Hxw.
  rewrite (lxor_word W y A1) in * by assumption.
  set (B := Z.lxor y A1) in *.
  assert (HB : word W B)
    by (unfold B; rewrite <- (lxor_word W y A1) by assumption;
        apply to_word_range).
  rewrite (lxor_word W x B) by assumption.
  cbn [encode_rounds].
  replace (i <=? r) with true by (symmetry; apply Z.leb_le; lia).
  rewrite lxor_cancel.
  rewrite (left_shift_right_shift _ _ _ _ _ Hx). cbn [bind].
  rewrite Hs. cbn [bind].
  rewrite sub_add_word, (to_word_small W A1) by exact HA1.
  unfold B at 1. rewrite lxor_cancel.
  rewrite (left_shift_right_shift _ _ _ _ _ Hy). cbn [bind].
  rewrite Hs'. cbn [bind].
  rewrite sub_add_word, (to_word_small W B1) by exact HB1.
  unfold to_u8. rewrite Z.mod_small by (change (2 ^ 8) with 256; lia).
  reflexivity.
Qed.

Lemma encode_rounds_decode_rounds (St : list Z) (n : nat) :
  forall (A1 B1 A0 B0 : Z) (fuel : nat),
  word W A1 -> word W B1 -> Z.of_nat n <= r ->
  decode_rounds sem W n St A1 B1 = Ok (A0, B0) ->
  encode_rounds sem W r (fuel + n) St 1 A0 B0
  = encode_rounds sem W r fuel St (Z.of_nat n + 1) A1 B1.
Proof.
  induction n as [| n IH]; intros A1 B1 A0 B0 fuel HA1 HB1 Hn H.
  - inversion H. subst. rewrite Nat.add_0_r. reflexivity.
  - cbn [decode_rounds] in H.
    apply bind_Ok in H. destruct H as (s' & Hs' & H).
    apply bind_Ok in H. destruct H as (y & Hy & H).
    apply bind_Ok in H. destruct H as (s & Hs & H).
    apply bind_Ok in H. destruct H as (x & Hx & H).
    rewrite Nat.add_succ_r, <- Nat.add_succ_l.
    rewrite (IH _ _ _ _ (S fuel) (to_word_range W _) (to_word_range W _)
               ltac:(lia) H).
    replace (Z.of_nat n + 1) with (Z.of_nat (S n)) by lia.
    apply (round_redone St (Z.of_nat (S n)) A1 B1 s' y s x); auto. lia.
Qed.

Lemma decode_rounds_word (St : list Z) (n : nat) :
  forall (A1 B1 A0 B0 : Z),
  word W A1 -> word W B1 ->
  decode_rounds sem W n St A1 B1 = Ok (A0, B0) -> word W A0 /\ word W B0.
Proof.
  induction n as [| n IH]; intros A1 B1 A0 B0 HA1 HB1 H.
  - inversion H. subst. auto.
  - cbn [decode_rounds] in H.
    apply bind_Ok in H. destruct H as (s' & Hs' & H).
    apply bind_Ok in H. destruct H as (y & Hy & H).
    apply bind_Ok in H. destruct H as (s & Hs & H).
    apply bind_Ok in H. destruct H as (x & Hx & H).
    apply IH in H; auto; apply to_word_range.
Qed.

(** [encodeWords] takes back what [decodeWords] returned. *)
Lemma encodeWords_decodeWords (K : list Z) (A' B' A B : Z) :
  word W A' -> word W B' ->
  decodeWords sem W r b K A' B' = Ok (A, B) ->
  encodeWords sem W r b (S (Z.to_nat r)) K A B = Ok (A', B').
Proof.
  intros HA' HB' H. unfold decodeWords in H. unfold encodeWords.
  apply bind_Ok in H. destruct H as (St & HSt & H).
  apply bind_Ok in H. destruct H as ([A0 B0] & Hdec & H).
  apply bind_Ok in H. destruct H as (s1 & Hs1 & H).
  apply bind_Ok in H. destruct H as (s0 & Hs0 & H).
  inversion H. subst A B. clear H.
  destruct (decode_rounds_word _ _ _ _ _ _ HA' HB' Hdec) as [HA0 HB0].
  rewrite HSt. cbn [bind]. rewrite Hs0. cbn [bind]. rewrite Hs1. cbn [bind].
  rewrite !sub_add_word, (to_word_small W A0), (to_word_small W B0)
    by assumption.
  change (S (Z.to_nat r)) with (1 + Z.to_nat r)%nat.
  rewrite (encode_rounds_decode_rounds St (Z.to_nat r) A' B' A0 B0 1%nat
             HA' HB' ltac:(lia) Hdec).
  cbn [encode_rounds].
  replace (Z.of_nat (Z.to_nat r) + 1 <=? r) with false
    by (symmetry; apply Z.leb_gt; lia).
  reflexivity.
Qed.

(** What [decode] returned, [encode] takes back to the ciphertext. *)
Lemma encode_decode (K ciphertext plaintext : list Z) :
  bytes ciphertext ->
  decode sem W r b K ciphertext = Ok plaintext ->
  encode sem W r b (S (Z.to_nat r)) K plaintext = Ok ciphertext
  /\ bytes plaintext.
Proof.
  intros Hb H. rewrite decode_words in H by exact Hb.
  destruct (accepted W b K ciphertext) eqn:Hacc; [| discriminate].
  apply accepted_true in Hacc. destruct Hacc as [HK Hl].
  destruct (block_halves W ciphertext Hl) as (E & L1 & L2).
  assert (Hb' : bytes (slice ciphertext 0 (u W))
                /\ bytes (slice ciphertext (u W) (u W)))
    by (apply bytes_app; rewrite <- E; exact Hb).
  destruct Hb' as [Hb1 Hb2].
  apply bind_Ok in H. destruct H as ([A B] & Hdec & H).
  inversion H as [Hpt]. clear H.
  assert (Hpb : bytes (le_bytes (Z.to_nat (u W)) A ++ le_bytes (Z.to_nat (u W)) B))
    by (apply bytes_app; split; apply le_bytes_bytes).
  split; [| exact Hpb].
  assert (Hw : word W A /\ word W B).
  { unfold decodeWords in Hdec.
    apply bind_Ok in Hdec. destruct Hdec as (St & _ & Hdec).
    apply bind_Ok in Hdec. destruct Hdec as ([A0 B0] & _ & Hdec).
    apply bind_Ok in Hdec. destruct Hdec as (s1 & _ & Hdec).
    apply bind_Ok in Hdec. destruct Hdec as (s0 & _ & Hdec).
    inversion Hdec. split; apply to_word_range. }
  destruct Hw as [HA HB].
  apply encodeWords_decodeWords in Hdec; auto using le_word_word.
  rewrite encode_words by exact Hpb.
  replace (accepted W b K _) with true.
  2:{ symmetry. apply accepted_true. split; [exact HK |].
      rewrite length_app, !le_bytes_length. pose proof (u_pos W). lia. }
  destruct (slices_of_halves W (le_bytes (Z.to_nat (u W)) A)
    (le_bytes (Z.to_nat (u W)) B)) as [S1 S2]; try apply le_bytes_length.
  rewrite S1, S2, !le_word_le_bytes_word by assumption.
  rewrite Hdec. cbn [bind]. f_equal.
  rewrite <- L1 at 1. rewrite (le_bytes_le_word _ Hb1).
  rewrite <- L2 at 1. rewrite (le_bytes_le_word _ Hb2).
  symmetry. exact E.
Qed.

End Redone.

(** ** decode returns *)

Section DecodeReturns.

Variable m : machine.
Variable W : width.
Variables r b : Z.

Hypothesis r_u8 : 0 <= r < 256.
Hypothesis b_u8 : 0 <= b < 256.

Lemma decode_rounds_returns (St : list Z) (n : nat) :
  forall (A B : Z),
  Z.of_nat (length St) = t r -> Z.of_nat n <= r ->
  exists A0 B0, decode_rounds (Machine m) W n St A B = Ok (A0, B0).
Proof.
  induction n as [| n IH]; intros A B HS Hn; [simpl; eauto |].
  cbn [decode_rounds]. unfold t in HS.
  rewrite idx_nth by lia. cbn [bind].
  rewrite right_shift_rotateRight. cbn [bind].
  rewrite idx_nth by lia. cbn [bind].
  rewrite right_shift_rotateRight. cbn [bind].
  apply IH; unfold t; lia.
Qed.

(** On a processor [decode] returns for every key and block of the
    right sizes, up to 255 rounds. *)
Lemma decode_returns (K ciphertext : list Z) :
  Z.of_nat (length K) = b -> bytes K ->
  Z.of_nat (length ciphertext) = u W * 2 -> bytes ciphertext ->
  exists plaintext, decode (Machine m) W r b K ciphertext = Ok plaintext.
Proof.
  intros HK HKb Hl Hb. rewrite decode_words by exact Hb.
  replace (accepted W b K ciphertext) with true
    by (symmetry; apply accepted_true; auto).
  unfold decodeWords.
  rewrite (setupS_spec W r b K r_u8 b_u8 HK HKb). cbn [bind].
  pose proof (spec_setupS_length W r b K r_u8) as HS.
  pose proof (t_range r r_u8) as Ht.
  destruct (decode_rounds_returns (spec_setupS W r b K) (Z.to_nat r)
    (le_word (slice ciphertext 0 (u W)))
    (le_word (slice ciphertext (u W) (u W)))) as (A0 & B0 & E); try lia.
  rewrite E. cbn [bind]. rewrite !idx_nth by lia. cbn [bind]. eauto.
Qed.

End DecodeReturns.

(** On a processor and below 255 rounds, every block is the ciphertext
    of a block: with [decode_encode], [encode] under one key is a
    bijection on the blocks. *)
Lemma encode_onto (m : machine) (W : width) (r b : Z)
    (K ciphertext : list Z) :
  0 <= r < 255 -> 0 <= b < 256 ->
  Z.of_nat (length K) = b -> bytes K ->
  Z.of_nat (length ciphertext) = u W * 2 -> bytes ciphertext ->
  exists plaintext,
    bytes plaintext
    /\ encode (Machine m) W r b (S (Z.to_nat r)) K plaintext = Ok ciphertext.
Proof.
  intros Hr Hb HK HKb Hl Hcb.
  destruct (decode_returns m W r b ltac:(lia) Hb K ciphertext HK HKb Hl Hcb)
    as [plaintext Hdec].
  exists plaintext.
  destruct (encode_decode (Machine m) W r b Hr K ciphertext plaintext Hcb Hdec).
  auto.
Qed.

(** ** The language rule and the processors agree

    Where the language gives a run a value, both processors compute
    that value: they only add results for the shifts the language
    leaves open. *)

Lemma agrees_refl {A : Type} (o : outcome A) : agrees o o.
Proof. intros v H. exact H. Qed.

Lemma agrees_bind {A B : Type} (o1 o2 : outcome A) (k1 k2 : A -> outcome B) :
  agrees o1 o2 -> (forall a, agrees (k1 a) (k2 a)) ->
  agrees (bind o1 k1) (bind o2 k2).
Proof.
  intros Ho Hk v H. apply bind_Ok in H. destruct H as (a & Ha & H).
  rewrite (Ho _ Ha). cbn [bind]. apply Hk. exact H.
Qed.

Lemma agrees_bind_pair {A1 A2 B : Type} (o1 o2 : outcome (A1 * A2))
    (k1 k2 : A1 * A2 -> outcome B) :
  agrees o1 o2 -> (forall a1 a2, agrees (k1 (a1, a2)) (k2 (a1, a2))) ->
  agrees (bind o1 k1) (bind o2 k2).
Proof.
  intros Ho Hk. apply agrees_bind; [exact Ho |]. intros [a1 a2]. apply Hk.
Qed.

Create HintDb agrees discriminated.

#[local] Hint Resolve agrees_refl : agrees.

Ltac agrees_steps :=
  first [ solve [auto with agrees]
        | apply agrees_bind_pair;
            [agrees_steps | intros ? ?; cbn beta iota; agrees_steps]
        | apply agrees_bind; [agrees_steps | intros ?; agrees_steps] ].

Section Agreement.

Variable m : machine.
Variable W : width.
Variables r b : Z.

Lemma shl_agrees (pw x n : Z) :
  agrees (shl Standard pw x n) (shl (Machine m) pw x n).
Proof. intros v. apply shl_Ok_machine. Qed.

Lemma shr_agrees (pw x n : Z) :
  agrees (shr Standard pw x n) (shr (Machine m) pw x n).
Proof. intros v. apply shr_Ok_machine. Qed.

Hint Resolve shl_agrees shr_agrees : agrees.

Lemma left_shift_agrees (x y : Z) :
  agrees (left_shift Standard W x y) (left_shift (Machine m) W x y).
Proof. unfold left_shift. agrees_steps. Qed.

Lemma right_shift_agrees (x y : Z) :
  agrees (right_shift Standard W x y) (right_shift (Machine m) W x y).
Proof. unfold right_shift. agrees_steps. Qed.

Hint Resolve left_shift_agrees right_shift_agrees : agrees.

Lemma packWord_agrees (input_stream : list Z) (start : Z) :
  agrees (packWord Standard W input_stream start)
         (packWord (Machine m) W input_stream start).
Proof.
  unfold packWord. generalize 1 0. induction (Z.to_nat (u W)) as [| n IH];
    intros i word; cbn [packWord_loop]; agrees_steps.
Qed.

Lemma unpackWord_agrees (outputStream : list Z) (start word : Z) :
  agrees (unpackWord Standard W outputStream start word)
         (unpackWord (Machine m) W outputStream start word).
Proof.
  unfold unpackWord. generalize 0, outputStream.
  induction (Z.to_nat (u W)) as [| n IH];
    intros i out; cbn [unpackWord_loop]; agrees_steps.
Qed.

Lemma fill_L_agrees (K : list Z) (n : nat) :
  forall L, agrees (fill_L Standard W K n L) (fill_L (Machine m) W K n L).
Proof.
  induction n as [| n IH]; intros L; cbn [fill_L]; agrees_steps.
Qed.

Lemma mix_agrees (n : nat) :
  forall St L i j A B,
  agrees (mix Standard W r b n St L i j A B)
         (mix (Machine m) W r b n St L i j A B).
Proof.
  induction n as [| n IH]; intros St L i j A B; cbn [mix]; agrees_steps.
Qed.

Hint Resolve packWord_agrees unpackWord_agrees fill_L_agrees mix_agrees
  : agrees.

Lemma setupS_agrees (K : list Z) :
  agrees (setupS Standard W r b K) (setupS (Machine m) W r b K).
Proof. unfold setupS, key_words. agrees_steps. Qed.

Lemma encode_rounds_agrees (fuel : nat) :
  forall St i A B,
  agrees (encode_rounds Standard W r fuel St i A B)
         (encode_rounds (Machine m) W r fuel St i A B).
Proof.
  induction fuel as [| fuel IH]; intros St i A B; cbn [encode_rounds];
    [apply agrees_refl |].
  destruct (i <=? r); agrees_steps.
Qed.

Lemma decode_rounds_agrees (n : nat) :
  forall St A B,
  agrees (decode_rounds Standard W n St A B)
         (decode_rounds (Machine m) W n St A B).
Proof.
  induction n as [| n IH]; intros St A B; cbn [decode_rounds]; agrees_steps.
Qed.

Hint Resolve setupS_agrees encode_rounds_agrees decode_rounds_agrees
  : agrees.



End Agreement.

(** So the table of the specification is the only one [setupS] can
    return, under the language rule too. *)
Lemma setupS_returns_spec (sem : shift_sem) (W : width) (r b : Z)
    (K St : list Z) :
  0 <= r < 256 -> 0 <= b < 256 ->
  Z.of_nat (length K) = b -> bytes K ->
  setupS sem W r b K = Ok St -> St = spec_setupS W r b K.
Proof.
  intros Hr Hb HK HKb H.
  assert (Hm : setupS (Machine Masking) W r b K = Ok St).
  { destruct sem as [| m].
    - apply setupS_agrees. exact H.
    - rewrite setupS_spec in H |- * by assumption. exact H. }
  rewrite setupS_spec in Hm by assumption. congruence.
Qed.

(** ** More fuel changes nothing *)

Lemma encode_rounds_fuel (sem : shift_sem) (W : width) (r : Z) (fuel : nat) :
  forall (St : list Z) (i A B : Z) (AB : Z * Z) (more : nat),
  encode_rounds sem W r fuel St i A B = Ok AB ->
  encode_rounds sem W r (fuel + more) St i A B = Ok AB.
Proof.
  induction fuel as [| fuel IH]; intros St i A B AB more H; [discriminate |].
  cbn [encode_rounds Nat.add] in *. destruct (i <=? r); [| exact H].
  apply bind_Ok in H. destruct H as (x & Hx & H). rewrite Hx. cbn [bind].
  apply bind_Ok in H. destruct H as (s & Hs & H). rewrite Hs. cbn [bind].
  apply bind_Ok in H. destruct H as (y & Hy & H). rewrite Hy. cbn [bind].
  apply bind_Ok in H. destruct H as (s' & Hs' & H). rewrite Hs'. cbn [bind].
  apply IH. exact H.
Qed.

Lemma encode_fuel (sem : shift_sem) (W : width) (r b : Z) (fuel more : nat)
    (K plaintext ciphertext : list Z) :
  encode sem W r b fuel K plaintext = Ok ciphertext ->
  encode sem W r b (fuel + more) K plaintext = Ok ciphertext.
Proof.
  unfold encode. destruct (accepted W b K plaintext); [| discriminate].
  intros H.
  apply bind_Ok in H. destruct H as (A & HA & H). rewrite HA. cbn [bind].
  apply bind_Ok in H. destruct H as (B & HB & H). rewrite HB. cbn [bind].
  apply bind_Ok in H. destruct H as ([A' B'] & HAB & H).
  replace (encodeWords sem W r b (fuel + more) K A B) with (Ok (A', B'));
    [exact H |].
  unfold encodeWords in *.
  apply bind_Ok in HAB. destruct HAB as (St & HSt & HAB). rewrite HSt.
  cbn [bind].
  apply bind_Ok in HAB. destruct HAB as (s0 & Hs0 & HAB). rewrite Hs0.
  cbn [bind].
  apply bind_Ok in HAB. destruct HAB as (s1 & Hs1 & HAB). rewrite Hs1.
  cbn [bind]. symmetry. apply encode_rounds_fuel. exact HAB.
Qed.

(** ** 255 rounds *)

Lemma returned_bind_None {A B : Type} (o : outcome A) (k : A -> outcome B) :
  returned o = None -> returned (bind o k) = None.
Proof. destruct o; simpl; [discriminate | reflexivity ..]. Qed.

(** [encode] with [r = 255] does not return, whatever it is given. *)
Lemma encode_255_never_returns (sem : shift_sem) (W : width) (b : Z)
    (fuel : nat) (K plaintext : list Z) :
  returned (encode sem W 255 b fuel K plaintext) = None.
Proof.
  unfold encode. destruct (accepted W b K plaintext); [| reflexivity].
  destruct (packWord sem W plaintext 0) as [A | | |]; try reflexivity.
  cbn [bind].
  destruct (packWord sem W plaintext (u W)) as [B | | |]; try reflexivity.
  cbn [bind]. apply returned_bind_None. unfold encodeWords.
  destruct (setupS sem W 255 b K) as [St | | |]; try reflexivity. cbn [bind].
  destruct (idx St 0); try reflexivity. cbn [bind].
  destruct (idx St 1); try reflexivity. cbn [bind].
  apply encode_rounds_255. lia.
Qed.

(** On a processor every round goes through, so the run is cut short
    by the fuel and by nothing else. *)
Lemma encode_rounds_255_out_of_fuel (m : machine) (W : width) (fuel : nat) :
  forall (St : list Z) (i A B : Z),
  Z.of_nat (length St) = 512 -> 0 <= i < 256 ->
  encode_rounds (Machine m) W 255 fuel St i A B = OutOfFuel.
Proof.
  induction fuel as [| fuel IH]; intros St i A B HS Hi; [reflexivity |].
  cbn [encode_rounds].
  replace (i <=? 255) with true by (symmetry; apply Z.leb_le; lia).
  rewrite left_shift_rotateLeft. cbn [bind].
  rewrite idx_nth by lia. cbn [bind].
  rewrite left_shift_rotateLeft. cbn [bind].
  rewrite idx_nth by lia. cbn [bind].
  apply IH; [exact HS | apply Z.mod_pos_bound; reflexivity].
Qed.

Lemma encode_255_out_of_fuel (m : machine) (W : width) (b : Z) (fuel : nat)
    (K plaintext : list Z) :
  0 <= b < 256 -> Z.of_nat (length K) = b -> bytes K ->
  Z.of_nat (length plaintext) = u W * 2 -> bytes plaintext ->
  encode (Machine m) W 255 b fuel K plaintext = OutOfFuel.
Proof.
  intros Hb HK HKb Hl Hpb.
  assert (r_u8 : 0 <= 255 < 256) by lia.
  rewrite encode_words by exact Hpb.
  replace (accepted W b K plaintext) with true
    by (symmetry; apply accepted_true; auto).
  unfold encodeWords.
  rewrite (setupS_spec W 255 b K r_u8 Hb HK HKb). cbn [bind].
  pose proof (spec_setupS_length W 255 b K r_u8) as HS.
  change (t 255) with 512 in HS.
  rewrite !idx_nth by lia. cbn [bind].
  rewrite encode_rounds_255_out_of_fuel by (auto; lia). reflexivity.
Qed.

(** ** The empty key *)

Lemma empty_key_words (sem : shift_sem) (W : width) :
  c W 0 = 1 /\ key_words sem W 0 [] = Ok [0].
Proof. destruct W; split; reflexivity. Qed.

Lemma zero_key_words (sem : shift_sem) (W : width) :
  c W (u W) = 1 /\ key_words sem W (u W) (repeat 0 (Z.to_nat (u W))) = Ok [0].
Proof. destruct W; split; reflexivity. Qed.

(** The mixing loop sees the key length through [c] only. *)
Lemma mix_same_c (sem : shift_sem) (W : width) (r b b' : Z) (n : nat) :
  c W b = c W b' ->
  forall St L i j A B,
  mix sem W r b n St L i j A B = mix sem W r b' n St L i j A B.
Proof.
  intros Hc. induction n as [| n IH]; intros St L i j A B; [reflexivity |].
  cbn [mix].
  destruct (idx St i); try reflexivity. cbn [bind].
  destruct (left_shift sem W _ 3); try reflexivity. cbn [bind].
  destruct (set_idx St i _); try reflexivity. cbn [bind].
  destruct (idx L j); try reflexivity. cbn [bind].
  destruct (left_shift sem W _ _); try reflexivity. cbn [bind].
  destruct (set_idx L j _); try reflexivity. cbn [bind].
  rewrite Hc. apply IH.
Qed.

Lemma setupS_empty_key (sem : shift_sem) (W : width) (r : Z) :
  setupS sem W r 0 [] = setupS sem W r (u W) (repeat 0 (Z.to_nat (u W))).
Proof.
  destruct (empty_key_words sem W) as [C0 L0].
  destruct (zero_key_words sem W) as [Cu Lu].
  unfold setupS. rewrite L0, Lu, C0, Cu. cbn [bind].
  destruct (initial_S W r); try reflexivity. cbn [bind].
  apply mix_same_c. congruence.
Qed.

Lemma le_bytes_nth (n : nat) :
  forall (x : Z) (i : nat),
  (i < n)%nat -> nth i (le_bytes n x) 0 = (x / 256 ^ Z.of_nat i) mod 256.
Proof.
  induction n as [| n IH]; intros x i Hi; [lia |].
  destruct i as [| i]; cbn [le_bytes nth].
  - rewrite Z.pow_0_r, Z.div_1_r. reflexivity.
  - rewrite IH by lia. rewrite Nat2Z.inj_succ, Z.pow_succ_r, Z.div_div by lia.
    reflexivity.
Qed.

(** Byte [i] of a packed word is element [i] of what was packed. *)
Lemma le_word_byte (bs : list Z) (i : nat) :
  bytes bs -> (i < length bs)%nat ->
  (le_word bs / 256 ^ Z.of_nat i) mod 256 = nth i bs 0.
Proof.
  intros Hb Hi. rewrite <- (le_bytes_nth (length bs)) by exact Hi.
  rewrite le_bytes_le_word by exact Hb. reflexivity.
Qed.

Lemma slice_nth (l : list Z) (start n : Z) (i : nat) :
  0 <= start -> (i < Z.to_nat n)%nat ->
  nth i (slice l start n) 0 = nth (Z.to_nat start + i) l 0.
Proof.
  intros Hs Hi. unfold slice. rewrite nth_firstn.
  replace (i <? Z.to_nat n)%nat with true by (symmetry; apply Nat.ltb_lt; lia).
  apply nth_skipn.
Qed.

Lemma bytes_repeat_0 (n : nat) : bytes (repeat 0 n).
Proof.
  apply Forall_forall. intros x Hx. apply repeat_spec in Hx. lia.
Qed.

(** ** The tests of the source, read by the language rule

    [test1] to [test5] are evaluated by the compiler, [test6] at run
    time.  In each of them the mixing loop of [setupS] meets a rotation
    amount that is a multiple of the width, so the run goes through a
    shift by the full width before any round is done. *)

Lemma test1_shifts_by_the_width (fuel : nat) :
  encode Standard W32 12 16 fuel test1.key test1.plaintext = Undefined.
Proof. vm_compute. reflexivity. Qed.

(** In [test1] it is mixing iteration [k = 45]: 45 iterations go
    through, the 46th does not. *)
Lemma test1_zero_rotation_at_iteration_45 :
  (exists St,
     (L <- key_words Standard W32 16 test1.key ;;
      St <- initial_S W32 12 ;;
      mix Standard W32 12 16 45 St L 0 0 0 0) = Ok St)
  /\ (L <- key_words Standard W32 16 test1.key ;;
      St <- initial_S W32 12 ;;
      mix Standard W32 12 16 46 St L 0 0 0 0) = Undefined.
Proof.
  split; [eexists |]; vm_compute; reflexivity.
Qed.

Lemma test5_shifts_by_the_width (fuel : nat) :
  encode Standard W64 24 24 fuel test5.key test5.plaintext = Undefined.
Proof. vm_compute. reflexivity. Qed.

Lemma test6_shifts_by_the_width (fuel : nat) :
  encode Standard W64 24 0 fuel test6.key test6.plaintext = Undefined.
Proof. vm_compute. reflexivity. Qed.

(** On a processor the other tests hold too, and [test6] returns. *)
Lemma test2_vector (m : machine) :
  encode (Machine m) W32 12 16 13 test2.key test2.plaintext
  = Ok test2.ciphertext.
Proof. destruct m; vm_compute; reflexivity. Qed.

Lemma test3_vector (m : machine) :
  decode (Machine m) W32 12 16 test3.key test3.ciphertext
  = Ok test3.plaintext.
Proof. destruct m; vm_compute; reflexivity. Qed.

Lemma test4_vector (m : machine) :
  decode (Machine m) W32 12 16 test4.key test4.ciphertext
  = Ok test4.plaintext.
Proof. destruct m; vm_compute; reflexivity. Qed.

Lemma test6_returns (m : machine) :
  encode (Machine m) W64 24 0 25 test6.key test6.plaintext
  = Ok [0x54; 0x1C; 0x75; 0xA1; 0x77; 0x73; 0x94; 0xE6;
        0x0B; 0x46; 0x2F; 0xF0; 0x44; 0xC4; 0x4B; 0xA5].
Proof. destruct m; vm_compute; reflexivity. Qed.

(** ** Runs of encode that return the same block

    Under one key two runs that return the same ciphertext block
    started from the same block.  This says nothing of the runs that do
    not return. *)
Lemma encode_injective (sem : shift_sem) (W : width) (r b : Z)
    (fuel1 fuel2 : nat) (K block1 block2 ciphertext : list Z) :
  0 <= r < 256 -> bytes block1 -> bytes block2 ->
  encode sem W r b fuel1 K block1 = Ok ciphertext ->
  encode sem W r b fuel2 K block2 = Ok ciphertext ->
  block1 = block2.
Proof.
  intros Hr Hb1 Hb2 H1 H2.
  apply (decode_encode sem W r b Hr) in H1; [| exact Hb1].
  apply (decode_encode sem W r b Hr) in H2; [| exact Hb2].
  congruence.
Qed.

(** * The properties of the specification *)

(** C1 (round trip, for every supported instantiation): the code does
    not have it where [r = 255].  The counter of the loop of
    [encodeWords] is a [uint8_t], [i <= 255] holds for each of its
    values, and [encode] never returns: not for any word width, key
    length, key, block or amount of fuel, so there is no ciphertext to
    decode.  On the key and the block of [test1] the run is still in
    the loop when the fuel is spent.  ([decode_encode_returns] is the
    round trip for [r <= 254].) *)
Theorem C1_encode_never_returns_with_255_rounds :
  (forall (sem : shift_sem) (W : width) (b : Z) (fuel : nat)
          (K plaintext : list Z),
     returned (encode sem W 255 b fuel K plaintext) = None)
  /\ (forall (m : machine) (fuel : nat),
        encode (Machine m) W32 255 16 fuel test1.key test1.plaintext
        = OutOfFuel).
Proof.
  split; [exact encode_255_never_returns |].
  intros m fuel. apply encode_255_out_of_fuel.
  - lia.
  - reflexivity.
  - repeat constructor; lia.
  - reflexivity.
  - repeat constructor; lia.
Qed.

(** C2 (first test vector): [RC5<32, 12, 16>::encode] on the key
    00 01 .. 0F and the block 00 11 22 33 44 55 66 77 returns
    2D DC 14 9B CF 08 8B 9E, on either processor. *)
Theorem C2_test1_vector :
  forall m : machine,
  encode (Machine m) W32 12 16 13 test1.key test1.plaintext
  = Ok test1.ciphertext.
Proof. intros [|]; vm_compute; reflexivity. Qed.

(** C3 (64-bit test vector): [RC5<64, 24, 24>::encode] on the key
    00 .. 17 and the block 00 .. 0F returns
    A4 67 72 82 0E DB CE 02 35 AB EA 32 AE 71 78 DA, on either
    processor. *)
Theorem C3_test5_vector :
  forall m : machine,
  encode (Machine m) W64 24 24 25 test5.key test5.plaintext
  = Ok test5.ciphertext.
Proof. intros [|]; vm_compute; reflexivity. Qed.

(** C4 (rotation without an undefined shift): the code does compute the
    shift by [w].  For an amount that is a multiple of the width,
    [left_shift] evaluates [x >> (w - 0)] and [right_shift]
    [x << (w - 0)]; with 32-bit and 64-bit words the operand is not
    promoted to anything wider, and the language gives the expression
    no value. *)
Theorem C4_rotation_by_zero_shifts_by_the_width :
  forall x k : Z,
  left_shift Standard W32 x (k * 32) = Undefined
  /\ right_shift Standard W32 x (k * 32) = Undefined
  /\ left_shift Standard W64 x (k * 64) = Undefined
  /\ right_shift Standard W64 x (k * 64) = Undefined.
Proof.
  intros x k. repeat split.
  - apply left_shift_standard_zero; [reflexivity | apply Z.mod_mul; discriminate].
  - apply right_shift_standard_zero; [reflexivity | apply Z.mod_mul; discriminate].
  - apply left_shift_standard_zero; [reflexivity | apply Z.mod_mul; discriminate].
  - apply right_shift_standard_zero; [reflexivity | apply Z.mod_mul; discriminate].
Qed.

(** C5 (key schedule): for a key of [b] bytes [setupS] returns, on either
    processor, the table of [t = 2 * (r + 1)] words of the schedule of
    the specification: [S[0] = P], [S[i] = S[i-1] + Q], then
    [3 * max(t, c)] mixing iterations from [A = B = i = j = 0] over S
    and the little-endian L-table. *)
Theorem C5_setupS_follows_the_schedule :
  forall (m : machine) (W : width) (r b : Z) (K : list Z),
  0 <= r < 256 -> 0 <= b < 256 ->
  Z.of_nat (length K) = b -> bytes K ->
  setupS (Machine m) W r b K = Ok (spec_setupS W r b K)
  /\ Z.of_nat (length (spec_setupS W r b K)) = 2 * (r + 1).
Proof.
  intros m W r b K Hr Hb HK HKb. split.
  - apply setupS_spec; assumption.
  - apply spec_setupS_length. exact Hr.
Qed.

Lemma C5_setupS_follows_the_schedule_witness :
  0 <= 12 < 256 /\ 0 <= 16 < 256
  /\ Z.of_nat (length test1.key) = 16 /\ bytes test1.key
  /\ setupS (Machine Masking) W32 12 16 test1.key
     = Ok (spec_setupS W32 12 16 test1.key)
  /\ Z.of_nat (length (spec_setupS W32 12 16 test1.key)) = 2 * (12 + 1).
Proof.
  assert (Hr : 0 <= 12 < 256) by lia.
  assert (Hb : 0 <= 16 < 256) by lia.
  assert (HK : Z.of_nat (length test1.key) = 16) by reflexivity.
  assert (HKb : bytes test1.key) by (repeat constructor; lia).
  exact (conj Hr (conj Hb (conj HK (conj HKb
    (C5_setupS_follows_the_schedule Masking W32 12 16 test1.key
       Hr Hb HK HKb))))).
Defined.

(** C6 (empty key): the L-table is in bounds ([empty_key_words]), but
    [encode] is not total under the empty key: with [r = 255] the run
    on the all-zero block is still in the loop of [encodeWords] when
    the fuel is spent, however much there was. *)
Theorem C6_empty_key_encode_hangs_with_255_rounds :
  forall (m : machine) (W : width) (fuel : nat),
  encode (Machine m) W 255 0 fuel [] (repeat 0 (Z.to_nat (u W * 2)))
  = OutOfFuel.
Proof.
  intros m W fuel. pose proof (u_pos W) as Hu.
  apply encode_255_out_of_fuel.
  - lia.
  - reflexivity.
  - constructor.
  - rewrite repeat_length. lia.
  - apply bytes_repeat_0.
Qed.

(** C7 (injectivity, that is a bijection on the blocks): the code does
    not have it where [r = 255].  On a processor, for every key of [b]
    bytes and every block of [2u] bytes, the run of [encode] is still
    in the loop of [encodeWords] when the fuel is spent, however much
    there was: no block has a ciphertext and no block is one, so
    [encode] is not a map on the blocks, let alone a bijection.
    ([encode_injective] is what holds of the runs that return.) *)
Theorem C7_no_block_has_a_ciphertext_with_255_rounds :
  forall (m : machine) (W : width) (b : Z) (fuel : nat) (K block : list Z),
  0 <= b < 256 -> Z.of_nat (length K) = b -> bytes K ->
  Z.of_nat (length block) = u W * 2 -> bytes block ->
  encode (Machine m) W 255 b fuel K block = OutOfFuel.
Proof.
  intros m W b fuel K block Hb HK HKb Hl Hbb.
  apply encode_255_out_of_fuel; assumption.
Qed.

Lemma C7_no_block_has_a_ciphertext_with_255_rounds_witness :
  0 <= 24 < 256 /\ Z.of_nat (length test5.key) = 24 /\ bytes test5.key
  /\ Z.of_nat (length test5.plaintext) = u W64 * 2
  /\ bytes test5.plaintext
  /\ encode (Machine Masking) W64 255 24 1000 test5.key test5.plaintext
     = OutOfFuel.
Proof.
  assert (Hb : 0 <= 24 < 256) by lia.
  assert (HK : Z.of_nat (length test5.key) = 24) by reflexivity.
  assert (HKb : bytes test5.key) by (repeat constructor; lia).
  assert (Hl : Z.of_nat (length test5.plaintext) = u W64 * 2) by reflexivity.
  assert (Hbb : bytes test5.plaintext) by (repeat constructor; lia).
  exact (conj Hb (conj HK (conj HKb (conj Hl (conj Hbb
    (C7_no_block_has_a_ciphertext_with_255_rounds Masking W64 24 1000
       test5.key test5.plaintext Hb HK HKb Hl Hbb)))))).
Defined.

(** C8 (packing): [packWord] returns the little-endian word of the
    [u = ceil(w / 8)] bytes at [offset .. offset + u - 1], byte [i] of
    the word being [buffer[offset + i]]; [unpackWord] overwrites
    exactly these positions with the bytes of the word, least
    significant first; [encode] packs [A] from the first [u] bytes of
    the block and [B] from the next [u], and its result is the bytes of
    [A] followed by those of [B]. *)
Theorem C8_packing :
  forall (sem : shift_sem) (W : width) (r b : Z)
         (buffer : list Z) (offset word : Z)
         (fuel : nat) (K plaintext : list Z),
  bytes buffer -> 0 <= offset ->
  offset + u W <= Z.of_nat (length buffer) ->
  bytes plaintext ->
  8 * u W = w W
  /\ packWord sem W buffer offset = Ok (le_word (slice buffer offset (u W)))
  /\ (forall i : nat, Z.of_nat i < u W ->
        (le_word (slice buffer offset (u W)) / 256 ^ Z.of_nat i) mod 256
        = nth (Z.to_nat offset + i) buffer 0)
  /\ unpackWord sem W buffer offset word
     = Ok (firstn (Z.to_nat offset) buffer
           ++ le_bytes (Z.to_nat (u W)) word
           ++ skipn (Z.to_nat (offset + u W)) buffer)
  /\ encode sem W r b fuel K plaintext
     = if accepted W b K plaintext then
         '(A, B) <- encodeWords sem W r b fuel K
                      (le_word (slice plaintext 0 (u W)))
                      (le_word (slice plaintext (u W) (u W))) ;;
         Ok (le_bytes (Z.to_nat (u W)) A ++ le_bytes (Z.to_nat (u W)) B)
       else Rejected.
Proof.
  intros sem W r b buffer offset word fuel K plaintext Hb Ho Hl Hp.
  pose proof (u_pos W) as Hu.
  destruct (slice_split buffer offset (u W)) as (E & L1 & L2); try lia.
  repeat split.
  - apply u_bits.
  - apply packWord_le; assumption.
  - intros i Hi. rewrite le_word_byte.
    + apply slice_nth; lia.
    + rewrite E in Hb. apply bytes_app in Hb. destruct Hb as [_ Hb].
      apply bytes_app in Hb. tauto.
    + lia.
  - apply unpackWord_le; assumption.
  - apply encode_words. exact Hp.
Qed.

Lemma C8_packing_witness :
  bytes test1.plaintext /\ 0 <= 4
  /\ 4 + u W32 <= Z.of_nat (length test1.plaintext)
  /\ packWord Standard W32 test1.plaintext 4 = Ok 0x77665544
  /\ unpackWord Standard W32 test1.plaintext 4 0x0A0B0C0D
     = Ok [0x00; 0x11; 0x22; 0x33; 0x0D; 0x0C; 0x0B; 0x0A].
Proof.
  assert (Hb : bytes test1.plaintext) by (repeat constructor; lia).
  assert (Ho : 0 <= 4) by lia.
  assert (Hl : 4 + u W32 <= Z.of_nat (length test1.plaintext))
    by (vm_compute; discriminate).
  pose proof (C8_packing Standard W32 12 16 test1.plaintext 4 0x0A0B0C0D
                13 test1.key test1.plaintext Hb Ho Hl Hb)
    as (_ & Hpack & _ & Hunpack & _).
  exact (conj Hb (conj Ho (conj Hl (conj Hpack Hunpack)))).
Defined.

(** C9 (magic constants): [P] and [Q] for the three word widths. *)
Theorem C9_magic_constants :
  WordT.P W16 = 0xB7E1 /\ WordT.Q W16 = 0x9E37
  /\ WordT.P W32 = 0xB7E15163 /\ WordT.Q W32 = 0x9E3779B9
  /\ WordT.P W64 = 0xB7E151628AED2A6B /\ WordT.Q W64 = 0x9E3779B97F4A7C15.
Proof. repeat split. Qed.

(** C10 (empty key and zero word): under the empty key and under the
    key of [u] zero bytes the schedule has [c = 1] and the single
    L-table word 0, [setupS] has the same outcome, and [encode] does
    the same on every block. *)
Theorem C10_empty_key_is_the_zero_word_key :
  forall (sem : shift_sem) (W : width) (r : Z) (fuel : nat)
         (plaintext : list Z),
  c W 0 = 1 /\ c W (u W) = 1
  /\ key_words sem W 0 [] = Ok [0]
  /\ key_words sem W (u W) (repeat 0 (Z.to_nat (u W))) = Ok [0]
  /\ setupS sem W r 0 [] = setupS sem W r (u W) (repeat 0 (Z.to_nat (u W)))
  /\ encode sem W r 0 fuel [] plaintext
     = encode sem W r (u W) fuel (repeat 0 (Z.to_nat (u W))) plaintext.
Proof.
  intros sem W r fuel plaintext.
  destruct (empty_key_words sem W) as [C0 L0].
  destruct (zero_key_words sem W) as [Cu Lu].
  repeat split; try assumption.
  - apply setupS_empty_key.
  - unfold encode, encodeWords. rewrite setupS_empty_key.
    replace (accepted W (u W) (repeat 0 (Z.to_nat (u W))) plaintext)
      with (accepted W 0 [] plaintext); [reflexivity |].
    unfold accepted. f_equal. rewrite repeat_length.
    destruct W; reflexivity.
Qed.

(** * Further properties of the code *)

(** ** The shape of what encode and decode return *)

Lemma encode_shape (sem : shift_sem) (W : width) (r b : Z) (fuel : nat)
    (K plaintext ciphertext : list Z) :
  encode sem W r b fuel K plaintext = Ok ciphertext ->
  accepted W b K plaintext = true
  /\ Z.of_nat (length ciphertext) = u W * 2 /\ bytes ciphertext.
Proof.
  unfold encode. destruct (accepted W b K plaintext) eqn:Hacc;
    [| discriminate].
  intros H. split; [reflexivity |].
  apply accepted_true in Hacc. destruct Hacc as [_ Hl].
  apply bind_Ok in H. destruct H as (A & _ & H).
  apply bind_Ok in H. destruct H as (B & _ & H).
  apply bind_Ok in H. destruct H as ([A' B'] & _ & H).
  rewrite unpack_block in H by (rewrite repeat_length; exact Hl).
  inversion H. pose proof (u_pos W).
  split.
  - rewrite length_app, !le_bytes_length. lia.
  - apply bytes_app. split; apply le_bytes_bytes.
Qed.

Lemma decode_shape (sem : shift_sem) (W : width) (r b : Z)
    (K ciphertext plaintext : list Z) :
  decode sem W r b K ciphertext = Ok plaintext ->
  accepted W b K ciphertext = true
  /\ Z.of_nat (length plaintext) = u W * 2 /\ bytes plaintext.
Proof.
  unfold decode. destruct (accepted W b K ciphertext) eqn:Hacc;
    [| discriminate].
  intros H. split; [reflexivity |].
  apply accepted_true in Hacc. destruct Hacc as [_ Hl].
  apply bind_Ok in H. destruct H as (A & _ & H).
  apply bind_Ok in H. destruct H as (B & _ & H).
  apply bind_Ok in H. destruct H as ([A' B'] & _ & H).
  rewrite unpack_block in H by (rewrite repeat_length; exact Hl).
  inversion H. pose proof (u_pos W).
  split.
  - rewrite length_app, !le_bytes_length. lia.
  - apply bytes_app. split; apply le_bytes_bytes.
Qed.

(** ** What packWord and unpackWord touch *)

Lemma idx_Ok_bounds (l : list Z) (i v : Z) :
  idx l i = Ok v -> 0 <= i < Z.of_nat (length l).
Proof.
  unfold idx. destruct (Z.ltb_spec i 0); [discriminate |].
  destruct (nth_error l (Z.to_nat i)) eqn:E; [| discriminate].
  intros _. assert (Z.to_nat i < length l)%nat
    by (apply nth_error_Some; congruence). lia.
Qed.

Lemma update_Some_lt (l : list Z) (n : nat) (v : Z) (l' : list Z) :
  update l n v = Some l' -> (n < length l)%nat.
Proof.
  revert n l'. induction l as [| x l IH]; intros [| n] l' H; simpl in *;
    try discriminate; try lia.
  destruct (update l n v) eqn:E; [| discriminate].
  apply IH in E. lia.
Qed.

Lemma set_idx_Ok_bounds (l : list Z) (i v : Z) (l' : list Z) :
  set_idx l i v = Ok l' -> 0 <= i < Z.of_nat (length l).
Proof.
  unfold set_idx. destruct (Z.ltb_spec i 0); [discriminate |].
  destruct (update l (Z.to_nat i) v) eqn:E; [| discriminate].
  intros _. apply update_Some_lt in E. lia.
Qed.

Lemma packWord_loop_reads (sem : shift_sem) (W : width)
    (input_stream : list Z) (start : Z) (n : nat) :
  forall (i word v : Z),
  packWord_loop sem W input_stream start n i word = Ok v ->
  forall k, i <= k < i + Z.of_nat n ->
  0 <= start + u W - k < Z.of_nat (length input_stream).
Proof.
  induction n as [| n IH]; intros i word v H k Hk; [lia |].
  cbn [packWord_loop] in H.
  apply bind_Ok in H. destruct H as (hi & _ & H).
  apply bind_Ok in H. destruct H as (byte & Hb & H).
  destruct (Z.eq_dec k i) as [-> | Hne].
  - exact (idx_Ok_bounds _ _ _ Hb).
  - apply (IH _ _ _ H). lia.
Qed.

Lemma unpackWord_loop_writes (sem : shift_sem) (start word : Z) (n : nat) :
  forall (i : Z) (out out' : list Z),
  unpackWord_loop sem start word n i out = Ok out' ->
  length out' = length out
  /\ forall k, i <= k < i + Z.of_nat n ->
     0 <= start + k < Z.of_nat (length out).
Proof.
  induction n as [| n IH]; intros i out out' H.
  - inversion H. split; [reflexivity | lia].
  - cbn [unpackWord_loop] in H.
    apply bind_Ok in H. destruct H as (mask & _ & H).
    apply bind_Ok in H. destruct H as (byte & _ & H).
    apply bind_Ok in H. destruct H as (out1 & Hset & H).
    pose proof (set_idx_length _ _ _ _ Hset) as Hl.
    pose proof (set_idx_Ok_bounds _ _ _ _ Hset) as Hb.
    destruct (IH _ _ _ H) as [Hl' Hk]. split; [congruence |].
    intros k Hk'. destruct (Z.eq_dec k i) as [-> | Hne]; [exact Hb |].
    rewrite <- Hl. apply Hk. lia.
Qed.

(** ** packWord after unpackWord, and back *)

Lemma slice_middle (front mid back : list Z) :
  slice (front ++ mid ++ back) (Z.of_nat (length front))
        (Z.of_nat (length mid)) = mid.
Proof.
  unfold slice. rewrite !Nat2Z.id.
  rewrite skipn_app, Nat.sub_diag, skipn_all. cbn [skipn app].
  rewrite firstn_app, Nat.sub_diag, firstn_all. cbn [firstn].
  apply app_nil_r.
Qed.

(** ** Runs that differ in the reading of a wide shift only

    The shifts outside the two rotations have counts 8 and [i * 8]
    with [i < u], always below the width of their operand.  So two
    readings that give the rotations the same outcome give every
    function of the cipher the same outcome. *)

Section SameRotations.

Variables sem sem' : shift_sem.
Variable W : width.
Variables r b : Z.

Hypothesis same_left :
  forall x y, left_shift sem W x y = left_shift sem' W x y.
Hypothesis same_right :
  forall x y, right_shift sem W x y = right_shift sem' W x y.

Lemma shl_in_range_same (pw x n : Z) :
  0 <= n < pw -> shl sem pw x n = shl sem' pw x n.
Proof. intros H. rewrite !shl_in_range by exact H. reflexivity. Qed.

Lemma shr_in_range_same (pw x n : Z) :
  0 <= n < pw -> shr sem pw x n = shr sem' pw x n.
Proof. intros H. rewrite !shr_in_range by exact H. reflexivity. Qed.

Lemma packWord_same (input_stream : list Z) (start : Z) :
  packWord sem W input_stream start = packWord sem' W input_stream start.
Proof.
  unfold packWord. generalize 1, 0.
  induction (Z.to_nat (u W)) as [| n IH]; intros i word; [reflexivity |].
  cbn [packWord_loop]. pose proof (promoted_range W).
  rewrite (shl_in_range_same _ word 8) by lia.
  destruct (shl sem' _ _ _); try reflexivity. cbn [bind].
  destruct (idx input_stream _); try reflexivity. cbn [bind]. apply IH.
Qed.

Lemma unpackWord_loop_same (start word : Z) (n : nat) :
  forall (i : Z) (out : list Z),
  0 <= i -> i + Z.of_nat n <= 8 ->
  unpackWord_loop sem start word n i out
  = unpackWord_loop sem' start word n i out.
Proof.
  induction n as [| n IH]; intros i out Hi Hn; [reflexivity |].
  cbn [unpackWord_loop].
  rewrite (shl_in_range_same 64 0xFF (i * 8)) by lia.
  destruct (shl sem' _ _ _); try reflexivity. cbn [bind].
  rewrite (shr_in_range_same 64 _ (i * 8)) by lia.
  destruct (shr sem' _ _ _); try reflexivity. cbn [bind].
  destruct (set_idx out _ _); try reflexivity. cbn [bind].
  apply IH; lia.
Qed.

Lemma unpackWord_same (outputStream : list Z) (start word : Z) :
  unpackWord sem W outputStream start word
  = unpackWord sem' W outputStream start word.
Proof.
  unfold unpackWord. pose proof (u_pos W). pose proof (u_le_8 W).
  apply unpackWord_loop_same; lia.
Qed.

Lemma fill_L_same (K : list Z) (n : nat) :
  forall L, fill_L sem W K n L = fill_L sem' W K n L.
Proof.
  induction n as [| n IH]; intros L; [reflexivity |].
  cbn [fill_L]. pose proof (promoted_range W).
  destruct (idx L _) as [l | | |]; try reflexivity. cbn [bind].
  rewrite (shl_in_range_same _ l 8) by lia.
  destruct (shl sem' _ _ _); try reflexivity. cbn [bind].
  destruct (idx K _); try reflexivity. cbn [bind].
  destruct (set_idx L _ _); try reflexivity. cbn [bind]. apply IH.
Qed.

Lemma mix_same (n : nat) :
  forall St L i j A B,
  mix sem W r b n St L i j A B = mix sem' W r b n St L i j A B.
Proof.
  induction n as [| n IH]; intros St L i j A B; [reflexivity |].
  cbn [mix].
  destruct (idx St i); try reflexivity. cbn [bind].
  rewrite same_left.
  destruct (left_shift sem' W _ 3); try reflexivity. cbn [bind].
  destruct (set_idx St i _); try reflexivity. cbn [bind].
  destruct (idx L j); try reflexivity. cbn [bind].
  rewrite same_left.
  destruct (left_shift sem' W _ _); try reflexivity. cbn [bind].
  destruct (set_idx L j _); try reflexivity. cbn [bind]. apply IH.
Qed.

Lemma setupS_same (K : list Z) :
  setupS sem W r b K = setupS sem' W r b K.
Proof.
  unfold setupS, key_words. rewrite fill_L_same.
  destruct (fill_L sem' W K _ _); try reflexivity. cbn [bind].
  destruct (initial_S W r); try reflexivity. cbn [bind]. apply mix_same.
Qed.

Lemma encode_rounds_same (fuel : nat) :
  forall St i A B,
  encode_rounds sem W r fuel St i A B = encode_rounds sem' W r fuel St i A B.
Proof.
  induction fuel as [| fuel IH]; intros St i A B; [reflexivity |].
  cbn [encode_rounds]. destruct (i <=? r); [| reflexivity].
  rewrite same_left.
  destruct (left_shift sem' W _ _); try reflexivity. cbn [bind].
  destruct (idx St (2 * i)); try reflexivity. cbn [bind].
  rewrite same_left.
  destruct (left_shift sem' W _ _); try reflexivity. cbn [bind].
  destruct (idx St (2 * i + 1)); try reflexivity. cbn [bind]. apply IH.
Qed.

Lemma decode_rounds_same (n : nat) :
  forall St A B,
  decode_rounds sem W n St A B = decode_rounds sem' W n St A B.
Proof.
  induction n as [| n IH]; intros St A B; [reflexivity |].
  cbn [decode_rounds].
  destruct (idx St _); try reflexivity. cbn [bind].
  rewrite same_right.
  destruct (right_shift sem' W _ _); try reflexivity. cbn [bind].
  destruct (idx St _); try reflexivity. cbn [bind].
  rewrite same_right.
  destruct (right_shift sem' W _ _); try reflexivity. cbn [bind]. apply IH.
Qed.

Lemma encode_same (fuel : nat) (K plaintext : list Z) :
  encode sem W r b fuel K plaintext = encode sem' W r b fuel K plaintext.
Proof.
  unfold encode, encodeWords. destruct (accepted W b K plaintext);
    [| reflexivity].
  rewrite !packWord_same.
  destruct (packWord sem' W plaintext 0); try reflexivity. cbn [bind].
  destruct (packWord sem' W plaintext (u W)); try reflexivity. cbn [bind].
  rewrite setupS_same.
  destruct (setupS sem' W r b K) as [St | | |]; try reflexivity. cbn [bind].
  destruct (idx St 0); try reflexivity. cbn [bind].
  destruct (idx St 1); try reflexivity. cbn [bind].
  rewrite encode_rounds_same.
  destruct (encode_rounds sem' W r fuel St 1 _ _) as [[A B] | | |];
    try reflexivity. cbn [bind].
  rewrite unpackWord_same.
  destruct (unpackWord sem' W _ 0 A); try reflexivity. cbn [bind].
  rewrite unpackWord_same. reflexivity.
Qed.

Lemma decode_same (K ciphertext : list Z) :
  decode sem W r b K ciphertext = decode sem' W r b K ciphertext.
Proof.
  unfold decode, decodeWords. destruct (accepted W b K ciphertext);
    [| reflexivity].
  rewrite !packWord_same.
  destruct (packWord sem' W ciphertext 0); try reflexivity. cbn [bind].
  destruct (packWord sem' W ciphertext (u W)); try reflexivity. cbn [bind].
  rewrite setupS_same.
  destruct (setupS sem' W r b K) as [St | | |]; try reflexivity. cbn [bind].
  rewrite decode_rounds_same.
  destruct (decode_rounds sem' W _ St _ _) as [[A B] | | |];
    try reflexivity. cbn [bind].
  destruct (idx St 1); try reflexivity. cbn [bind].
  destruct (idx St 0); try reflexivity. cbn [bind].
  rewrite unpackWord_same.
  destruct (unpackWord sem' W _ 0 _); try reflexivity. cbn [bind].
  rewrite unpackWord_same. reflexivity.
Qed.

End SameRotations.

(** A [uint16_t] is rotated as an [int]: whatever the reading, the two
    shifts are in range. *)
Lemma left_shift_16 (sem : shift_sem) (x y : Z) :
  left_shift sem W16 x y = Ok (rotateLeft W16 x y).
Proof.
  destruct sem as [| m].
  - apply left_shift_standard. left. reflexivity.
  - apply left_shift_rotateLeft.
Qed.

Lemma right_shift_16 (sem : shift_sem) (x y : Z) :
  right_shift sem W16 x y = Ok (rotateRight W16 x y).
Proof.
  destruct sem as [| m].
  - apply right_shift_standard. left. reflexivity.
  - apply right_shift_rotateRight.
Qed.

(** ** The table holds words *)

Lemma update_Forall (Pr : Z -> Prop) (l : list Z) (n : nat) (v : Z)
    (l' : list Z) :
  Forall Pr l -> Pr v -> update l n v = Some l' -> Forall Pr l'.
Proof.
  revert n l'. induction l as [| x l IH]; intros [| n] l' Hl Hv H;
    simpl in H; try discriminate.
  - inversion H. inversion Hl. constructor; assumption.
  - destruct (update l n v) eqn:E; [| discriminate]. inversion H.
    inversion Hl. subst. constructor; eauto.
Qed.

Lemma assign_Forall (Pr : Z -> Prop) (l : list Z) (i v : Z) :
  Forall Pr l -> Pr v -> Forall Pr (assign l i v).
Proof.
  intros Hl Hv. unfold assign.
  destruct (update l (Z.to_nat i) v) eqn:E; [| exact Hl].
  eauto using update_Forall.
Qed.

Lemma arith_table_words (W : width) (n : nat) :
  forall x, word W x -> Forall (word W) (arith_table W n x).
Proof.
  induction n as [| n IH]; intros x Hx; cbn [arith_table]; constructor.
  - exact Hx.
  - apply IH. apply (to_word_range W).
Qed.

Lemma P_word (W : width) : word W (P W).
Proof. destruct W; unfold word; split; vm_compute; congruence. Qed.

Lemma rotateLeft_word (W : width) (x y : Z) : word W (rotateLeft W x y).
Proof. apply rotl_range, w_pos. Qed.

Lemma mix_iter_words (W : width) (r b : Z) (n : nat) :
  forall st, Forall (word W) (mix_S st) ->
  Forall (word W) (mix_S (mix_iter W r b n st)).
Proof.
  induction n as [| n IH]; intros st H; [exact H |].
  cbn [mix_iter]. apply IH. unfold mix_step. cbn [mix_S].
  apply assign_Forall; [exact H | apply rotateLeft_word].
Qed.

Lemma spec_setupS_words (W : width) (r b : Z) (K : list Z) :
  Forall (word W) (spec_setupS W r b K).
Proof.
  unfold spec_setupS. apply mix_iter_words. cbn [mix_S].
  apply arith_table_words, P_word.
Qed.

(** ** Zero bytes at the end of a key *)

Lemma le_word_zeros (l : list Z) : Forall (fun x => x = 0) l -> le_word l = 0.
Proof.
  induction 1 as [| x l Hx _ IH]; [reflexivity |].
  cbn [le_word]. rewrite Hx, IH. reflexivity.
Qed.

Lemma le_word_app_zeros (l z : list Z) :
  Forall (fun x => x = 0) z -> le_word (l ++ z) = le_word l.
Proof.
  intros Hz. induction l as [| x l IH]; cbn [app le_word].
  - apply le_word_zeros. exact Hz.
  - rewrite IH. reflexivity.
Qed.

Lemma zeros_repeat (n : nat) : Forall (fun x => x = 0) (repeat 0 n).
Proof.
  apply Forall_forall. intros x Hx. apply repeat_spec in Hx. exact Hx.
Qed.

Lemma zeros_firstn (n : nat) (l : list Z) :
  Forall (fun x => x = 0) l -> Forall (fun x => x = 0) (firstn n l).
Proof.
  intros H. rewrite <- (firstn_skipn n l) in H. apply Forall_app in H. tauto.
Qed.

Lemma zeros_skipn (n : nat) (l : list Z) :
  Forall (fun x => x = 0) l -> Forall (fun x => x = 0) (skipn n l).
Proof.
  intros H. rewrite <- (firstn_skipn n l) in H. apply Forall_app in H. tauto.
Qed.

Lemma le_word_slice_padded (K : list Z) (k : nat) (start n : Z) :
  le_word (slice (K ++ repeat 0 k) start n) = le_word (slice K start n).
Proof.
  unfold slice. rewrite skipn_app, firstn_app.
  apply le_word_app_zeros.
  apply zeros_firstn, zeros_skipn, zeros_repeat.
Qed.

Lemma spec_L_padded (W : width) (b b' : Z) (K : list Z) (k : nat) :
  spec_c W b = spec_c W b' ->
  spec_L W b' (K ++ repeat 0 k) = spec_L W b K.
Proof.
  intros Hc. unfold spec_L. rewrite Hc. apply map_ext. intros q.
  apply le_word_slice_padded.
Qed.

Lemma setupS_padded (sem : shift_sem) (W : width) (r b : Z)
    (K : list Z) (k : nat) :
  0 <= b -> b + Z.of_nat k < 256 ->
  Z.of_nat (length K) = b -> bytes K ->
  spec_c W b = spec_c W (b + Z.of_nat k) ->
  setupS sem W r (b + Z.of_nat k) (K ++ repeat 0 k) = setupS sem W r b K.
Proof.
  intros Hb Hk HK HKb Hc.
  assert (Hb' : 0 <= b < 256) by lia.
  assert (Hbk : 0 <= b + Z.of_nat k < 256) by lia.
  assert (HK' : Z.of_nat (length (K ++ repeat 0 k)) = b + Z.of_nat k)
    by (rewrite length_app, repeat_length; lia).
  assert (HKb' : bytes (K ++ repeat 0 k))
    by (apply bytes_app; split; [exact HKb | apply bytes_repeat_0]).
  assert (Hcc : c W (b + Z.of_nat k) = c W b)
    by (rewrite !c_spec by assumption; congruence).
  unfold setupS.
  rewrite (key_words_spec W b K Hb' HK HKb).
  rewrite (key_words_spec W _ _ Hbk HK' HKb').
  rewrite (spec_L_padded W b _ K k Hc), Hcc. cbn [bind].
  destruct (initial_S W r); try reflexivity. cbn [bind].
  apply mix_same_c. exact Hcc.
Qed.

(** ** constexpr_compare *)

Lemma compare_loop_decides (n : nat) :
  forall (i : Z) (pre1 rest1 pre2 rest2 : list Z),
  Z.of_nat (length pre1) = i -> Z.of_nat (length pre2) = i ->
  length rest1 = n -> length rest2 = n ->
  exists same,
    compare_loop (pre1 ++ rest1) (pre2 ++ rest2) n i = Ok same
    /\ (same = true <-> rest1 = rest2).
Proof.
  induction n as [| n IH]; intros i pre1 rest1 pre2 rest2 H1 H2 L1 L2.
  - destruct rest1, rest2; try discriminate.
    exists true. split; [reflexivity | tauto].
  - destruct rest1 as [| x rest1], rest2 as [| y rest2]; try discriminate.
    cbn [compare_loop]. subst i.
    rewrite idx_middle. cbn [bind].
    rewrite <- H2. rewrite idx_middle. cbn [bind].
    destruct (Z.eqb_spec x y) as [-> | Hne]; cbn [negb].
    + replace (pre1 ++ y :: rest1) with ((pre1 ++ [y]) ++ rest1)
        by (rewrite <- app_assoc; reflexivity).
      replace (pre2 ++ y :: rest2) with ((pre2 ++ [y]) ++ rest2)
        by (rewrite <- app_assoc; reflexivity).
      destruct (IH (Z.of_nat (length pre2) + 1)
                  (pre1 ++ [y]) rest1 (pre2 ++ [y]) rest2)
        as (same & Hs & Hiff);
        try (rewrite length_app; simpl length; lia);
        try (simpl in L1, L2; lia).
      exists same. split; [exact Hs |].
      rewrite Hiff. split; [congruence | intros E; inversion E; reflexivity].
    + exists false. split; [reflexivity |].
      split; [discriminate | intros E; inversion E; contradiction].
Qed.

(** * What the code guarantees beyond the specification's list *)

(** X1 (round trip below 255 rounds): on a processor, with at most 254
    rounds, [encode] returns for every key of [b] bytes and every block
    of [2u] bytes after [r + 1] tests of its loop, and [decode] takes
    the ciphertext back to the block. *)
Theorem X1_round_trip_below_255_rounds :
  forall (m : machine) (W : width) (r b : Z) (K plaintext : list Z),
  0 <= r < 255 -> 0 <= b < 256 ->
  Z.of_nat (length K) = b -> bytes K ->
  Z.of_nat (length plaintext) = u W * 2 -> bytes plaintext ->
  exists ciphertext,
    encode (Machine m) W r b (S (Z.to_nat r)) K plaintext = Ok ciphertext
    /\ decode (Machine m) W r b K ciphertext = Ok plaintext.
Proof.
  intros m W r b K plaintext Hr Hb HK HKb Hl Hpb.
  apply decode_encode_returns; assumption.
Qed.

Lemma X1_round_trip_below_255_rounds_witness :
  0 <= 12 < 255 /\ 0 <= 16 < 256
  /\ Z.of_nat (length test1.key) = 16 /\ bytes test1.key
  /\ Z.of_nat (length test1.plaintext) = u W32 * 2
  /\ bytes test1.plaintext
  /\ exists ciphertext,
       encode (Machine Masking) W32 12 16 (S (Z.to_nat 12)) test1.key
         test1.plaintext = Ok ciphertext
       /\ decode (Machine Masking) W32 12 16 test1.key ciphertext
          = Ok test1.plaintext.
Proof.
  assert (Hr : 0 <= 12 < 255) by lia.
  assert (Hb : 0 <= 16 < 256) by lia.
  assert (HK : Z.of_nat (length test1.key) = 16) by reflexivity.
  assert (HKb : bytes test1.key) by (repeat constructor; lia).
  assert (Hl : Z.of_nat (length test1.plaintext) = u W32 * 2) by reflexivity.
  assert (Hpb : bytes test1.plaintext) by (repeat constructor; lia).
  exact (conj Hr (conj Hb (conj HK (conj HKb (conj Hl (conj Hpb
    (X1_round_trip_below_255_rounds Masking W32 12 16 test1.key
       test1.plaintext Hr Hb HK HKb Hl Hpb))))))).
Defined.

(** X2 (decode undoes encode, under every reading): whatever [encode]
    returned for a block of bytes, [decode] under the same key returns
    that block, also where a shift by the full width counts as
    undefined and for any key the types accept. *)
Theorem X2_decode_undoes_encode :
  forall (sem : shift_sem) (W : width) (r b : Z) (fuel : nat)
         (K plaintext ciphertext : list Z),
  0 <= r < 256 -> bytes plaintext ->
  encode sem W r b fuel K plaintext = Ok ciphertext ->
  decode sem W r b K ciphertext = Ok plaintext.
Proof.
  intros sem W r b fuel K plaintext ciphertext Hr Hb H.
  exact (decode_encode sem W r b Hr fuel K plaintext ciphertext Hb H).
Qed.

Lemma X2_decode_undoes_encode_witness :
  0 <= 12 < 256 /\ bytes test2.plaintext
  /\ encode (Machine Flushing) W32 12 16 13 test2.key test2.plaintext
     = Ok test2.ciphertext
  /\ decode (Machine Flushing) W32 12 16 test2.key test2.ciphertext
     = Ok test2.plaintext.
Proof.
  assert (Hr : 0 <= 12 < 256) by lia.
  assert (Hb : bytes test2.plaintext) by (repeat constructor; lia).
  assert (H : encode (Machine Flushing) W32 12 16 13 test2.key
                test2.plaintext = Ok test2.ciphertext)
    by (vm_compute; reflexivity).
  exact (conj Hr (conj Hb (conj H
    (X2_decode_undoes_encode (Machine Flushing) W32 12 16 13 test2.key
       test2.plaintext test2.ciphertext Hr Hb H)))).
Defined.

(** X3 (encode undoes decode): with at most 254 rounds, whatever
    [decode] returned for a block of bytes is itself a block of bytes,
    and [encode] under the same key takes it back to that block with
    [r + 1] tests of its loop. *)
Theorem X3_encode_undoes_decode :
  forall (sem : shift_sem) (W : width) (r b : Z)
         (K ciphertext plaintext : list Z),
  0 <= r < 255 -> bytes ciphertext ->
  decode sem W r b K ciphertext = Ok plaintext ->
  encode sem W r b (S (Z.to_nat r)) K plaintext = Ok ciphertext
  /\ bytes plaintext.
Proof.
  intros sem W r b K ciphertext plaintext Hr Hb H.
  exact (encode_decode sem W r b Hr K ciphertext plaintext Hb H).
Qed.

Lemma X3_encode_undoes_decode_witness :
  0 <= 12 < 255 /\ bytes test3.ciphertext
  /\ decode (Machine Masking) W32 12 16 test3.key test3.ciphertext
     = Ok test3.plaintext
  /\ encode (Machine Masking) W32 12 16 (S (Z.to_nat 12)) test3.key
       test3.plaintext = Ok test3.ciphertext
  /\ bytes test3.plaintext.
Proof.
  assert (Hr : 0 <= 12 < 255) by lia.
  assert (Hb : bytes test3.ciphertext) by (repeat constructor; lia).
  assert (H : decode (Machine Masking) W32 12 16 test3.key test3.ciphertext
              = Ok test3.plaintext) by (vm_compute; reflexivity).
  exact (conj Hr (conj Hb (conj H
    (X3_encode_undoes_decode (Machine Masking) W32 12 16 test3.key
       test3.ciphertext test3.plaintext Hr Hb H)))).
Defined.

(** X4 (bijection below 255 rounds): on a processor, with at most 254
    rounds and a key of [b] bytes, every block of [2u] bytes is the
    ciphertext of one block of bytes and of no other. *)
Theorem X4_encode_is_a_bijection_below_255_rounds :
  forall (m : machine) (W : width) (r b : Z) (K ciphertext : list Z),
  0 <= r < 255 -> 0 <= b < 256 ->
  Z.of_nat (length K) = b -> bytes K ->
  Z.of_nat (length ciphertext) = u W * 2 -> bytes ciphertext ->
  exists plaintext,
    bytes plaintext
    /\ encode (Machine m) W r b (S (Z.to_nat r)) K plaintext = Ok ciphertext
    /\ forall (fuel : nat) (other : list Z),
         bytes other ->
         encode (Machine m) W r b fuel K other = Ok ciphertext ->
         other = plaintext.
Proof.
  intros m W r b K ciphertext Hr Hb HK HKb Hl Hcb.
  destruct (encode_onto m W r b K ciphertext Hr Hb HK HKb Hl Hcb)
    as (plaintext & Hpb & Henc).
  exists plaintext. repeat split; try assumption.
  intros fuel other Hob Hother.
  assert (Hr' : 0 <= r < 256) by lia.
  apply (decode_encode _ W r b Hr') in Henc; [| exact Hpb].
  apply (decode_encode _ W r b Hr') in Hother; [| exact Hob].
  congruence.
Qed.

Lemma X4_encode_is_a_bijection_below_255_rounds_witness :
  0 <= 12 < 255 /\ 0 <= 16 < 256
  /\ Z.of_nat (length test1.key) = 16 /\ bytes test1.key
  /\ Z.of_nat (length test1.ciphertext) = u W32 * 2
  /\ bytes test1.ciphertext
  /\ exists plaintext,
       bytes plaintext
       /\ encode (Machine Masking) W32 12 16 (S (Z.to_nat 12)) test1.key
            plaintext = Ok test1.ciphertext
       /\ forall (fuel : nat) (other : list Z),
            bytes other ->
            encode (Machine Masking) W32 12 16 fuel test1.key other
            = Ok test1.ciphertext ->
            other = plaintext.
Proof.
  assert (Hr : 0 <= 12 < 255) by lia.
  assert (Hb : 0 <= 16 < 256) by lia.
  assert (HK : Z.of_nat (length test1.key) = 16) by reflexivity.
  assert (HKb : bytes test1.key) by (repeat constructor; lia).
  assert (Hl : Z.of_nat (length test1.ciphertext) = u W32 * 2)
    by reflexivity.
  assert (Hcb : bytes test1.ciphertext) by (repeat constructor; lia).
  exact (conj Hr (conj Hb (conj HK (conj HKb (conj Hl (conj Hcb
    (X4_encode_is_a_bijection_below_255_rounds Masking W32 12 16 test1.key
       test1.ciphertext Hr Hb HK HKb Hl Hcb))))))).
Defined.

(** X5 (decode always returns): on a processor [decode] returns for
    every number of rounds a [uint8_t] holds, 255 included, every key
    of [b] bytes and every block of [2u] bytes: its loop counts down
    and every index into the table is within it. *)
Theorem X5_decode_returns_up_to_255_rounds :
  forall (m : machine) (W : width) (r b : Z) (K ciphertext : list Z),
  0 <= r < 256 -> 0 <= b < 256 ->
  Z.of_nat (length K) = b -> bytes K ->
  Z.of_nat (length ciphertext) = u W * 2 -> bytes ciphertext ->
  exists plaintext, decode (Machine m) W r b K ciphertext = Ok plaintext.
Proof.
  intros m W r b K ciphertext Hr Hb HK HKb Hl Hcb.
  exact (decode_returns m W r b Hr Hb K ciphertext HK HKb Hl Hcb).
Qed.

Lemma X5_decode_returns_up_to_255_rounds_witness :
  0 <= 255 < 256 /\ 0 <= 16 < 256
  /\ Z.of_nat (length test1.key) = 16 /\ bytes test1.key
  /\ Z.of_nat (length test1.ciphertext) = u W32 * 2
  /\ bytes test1.ciphertext
  /\ exists plaintext,
       decode (Machine Flushing) W32 255 16 test1.key test1.ciphertext
       = Ok plaintext.
Proof.
  assert (Hr : 0 <= 255 < 256) by lia.
  assert (Hb : 0 <= 16 < 256) by lia.
  assert (HK : Z.of_nat (length test1.key) = 16) by reflexivity.
  assert (HKb : bytes test1.key) by (repeat constructor; lia).
  assert (Hl : Z.of_nat (length test1.ciphertext) = u W32 * 2)
    by reflexivity.
  assert (Hcb : bytes test1.ciphertext) by (repeat constructor; lia).
  exact (conj Hr (conj Hb (conj HK (conj HKb (conj Hl (conj Hcb
    (X5_decode_returns_up_to_255_rounds Flushing W32 255 16 test1.key
       test1.ciphertext Hr Hb HK HKb Hl Hcb))))))).
Defined.

(** X6 (a returned block is a block): when [encode] or [decode]
    returns, the key had [b] elements and the input [2u], and the
    output is [2u] elements, each of them a byte, whatever the input
    held. *)
Theorem X6_returned_blocks_are_blocks :
  forall (sem : shift_sem) (W : width) (r b : Z) (fuel : nat)
         (K input output : list Z),
  encode sem W r b fuel K input = Ok output
  \/ decode sem W r b K input = Ok output ->
  Z.of_nat (length K) = b
  /\ Z.of_nat (length input) = u W * 2
  /\ Z.of_nat (length output) = u W * 2
  /\ bytes output.
Proof.
  intros sem W r b fuel K input output [H | H].
  - apply encode_shape in H. destruct H as (Hacc & Hl & Hb).
    apply accepted_true in Hacc. tauto.
  - apply decode_shape in H. destruct H as (Hacc & Hl & Hb).
    apply accepted_true in Hacc. tauto.
Qed.

Lemma X6_returned_blocks_are_blocks_witness :
  (encode (Machine Masking) W32 12 16 13 test1.key test1.plaintext
   = Ok test1.ciphertext
   \/ decode (Machine Masking) W32 12 16 test1.key test1.plaintext
      = Ok test1.ciphertext)
  /\ Z.of_nat (length test1.key) = 16
  /\ Z.of_nat (length test1.plaintext) = u W32 * 2
  /\ Z.of_nat (length test1.ciphertext) = u W32 * 2
  /\ bytes test1.ciphertext.
Proof.
  assert (H : encode (Machine Masking) W32 12 16 13 test1.key
                test1.plaintext = Ok test1.ciphertext
              \/ decode (Machine Masking) W32 12 16 test1.key
                   test1.plaintext = Ok test1.ciphertext)
    by (left; vm_compute; reflexivity).
  exact (conj H
    (X6_returned_blocks_are_blocks (Machine Masking) W32 12 16 13
       test1.key test1.plaintext test1.ciphertext H)).
Defined.

(** X7 (the rotations, bit by bit): on a processor [left_shift(x, y)]
    returns for every [x] and [y] a word whose bit [i] is bit
    [(i - y) mod w] of [x], and [right_shift(x, y)] one whose bit [i]
    is bit [(i + y) mod w] of [x]. *)
Theorem X7_rotations_bit_by_bit :
  forall (m : machine) (W : width) (x y : Z),
  (exists z,
     left_shift (Machine m) W x y = Ok z /\ word W z
     /\ forall i, 0 <= i < w W ->
          Z.testbit z i = Z.testbit (to_word W x) ((i - y) mod w W))
  /\ (exists z,
        right_shift (Machine m) W x y = Ok z /\ word W z
        /\ forall i, 0 <= i < w W ->
             Z.testbit z i = Z.testbit (to_word W x) ((i + y) mod w W)).
Proof.
  intros m W x y. pose proof (w_pos W) as Hw.
  pose proof (to_word_range W x) as Hx.
  pose proof (amount_range W y) as Hy.
  split.
  - exists (rotateLeft W x y). split; [apply left_shift_rotateLeft |].
    split; [apply rotateLeft_word |].
    intros i Hi. unfold rotateLeft. fold (to_word W x).
    rewrite rotl_bits by assumption.
    rewrite Zminus_mod_idemp_r. reflexivity.
  - exists (rotateRight W x y). split; [apply right_shift_rotateRight |].
    split; [apply rotr_range, w_pos |].
    intros i Hi. unfold rotateRight. fold (to_word W x).
    rewrite rotr_bits by assumption.
    rewrite Zplus_mod_idemp_r. reflexivity.
Qed.

(** X8 (one rotation undoes the other): under every reading of a wide
    shift, when [left_shift(x, y)] returns [z] then [right_shift(z, y)]
    returns [x] (as a word), and the other way round. *)
Theorem X8_rotations_undo_each_other :
  forall (sem : shift_sem) (W : width) (x y z : Z),
  (left_shift sem W x y = Ok z -> right_shift sem W z y = Ok (to_word W x))
  /\ (right_shift sem W x y = Ok z
      -> left_shift sem W z y = Ok (to_word W x)).
Proof.
  intros sem W x y z. split.
  - apply right_shift_left_shift.
  - apply left_shift_right_shift.
Qed.

Lemma X8_rotations_undo_each_other_witness :
  left_shift Standard W32 0x80000001 33 = Ok 3
  /\ right_shift Standard W32 3 33 = Ok (to_word W32 0x80000001).
Proof.
  assert (H : left_shift Standard W32 0x80000001 33 = Ok 3)
    by (vm_compute; reflexivity).
  exact (conj H
    (proj1 (X8_rotations_undo_each_other Standard W32 0x80000001 33 3) H)).
Defined.

(** X9 (16-bit words meet no wide shift): for [w = 16] the operand of
    each shift is promoted to a 32-bit [int] and every count is at most
    16, so [setupS], [encode] and [decode] have one outcome, the same
    under the language rule and on either processor. *)
Theorem X9_16_bit_words_meet_no_wide_shift :
  forall (sem sem' : shift_sem) (r b : Z) (fuel : nat) (K block : list Z),
  setupS sem W16 r b K = setupS sem' W16 r b K
  /\ encode sem W16 r b fuel K block = encode sem' W16 r b fuel K block
  /\ decode sem W16 r b K block = decode sem' W16 r b K block.
Proof.
  intros sem sem' r b fuel K block.
  assert (Hl : forall x y, left_shift sem W16 x y = left_shift sem' W16 x y)
    by (intros; rewrite !left_shift_16; reflexivity).
  assert (Hr : forall x y, right_shift sem W16 x y = right_shift sem' W16 x y)
    by (intros; rewrite !right_shift_16; reflexivity).
  repeat split.
  - apply setupS_same. exact Hl.
  - apply encode_same. exact Hl.
  - apply decode_same; assumption.
Qed.

(** X10 (packWord and unpackWord undo each other): within the bounds of
    a stream of bytes, [packWord] at the offset [unpackWord] wrote a
    word to returns that word, and [unpackWord] of what [packWord]
    returned leaves the stream as it was. *)
Theorem X10_pack_and_unpack_undo_each_other :
  forall (sem : shift_sem) (W : width) (buffer : list Z) (start word : Z),
  bytes buffer -> 0 <= start ->
  start + u W <= Z.of_nat (length buffer) ->
  (exists out,
     unpackWord sem W buffer start word = Ok out
     /\ packWord sem W out start = Ok (to_word W word))
  /\ (exists v,
        packWord sem W buffer start = Ok v
        /\ unpackWord sem W buffer start v = Ok buffer).
Proof.
  intros sem W buffer start word Hb Hs Hl. pose proof (u_pos W) as Hu.
  destruct (slice_split buffer start (u W)) as (E & L1 & L2); try lia.
  split.
  - eexists. split; [apply unpackWord_le; assumption |].
    rewrite packWord_le.
    + f_equal.
      pose proof (slice_middle (firstn (Z.to_nat start) buffer)
        (le_bytes (Z.to_nat (u W)) word)
        (skipn (Z.to_nat (start + u W)) buffer)) as Hm.
      rewrite L1, le_bytes_length, !Z2Nat.id in Hm by lia.
      rewrite Hm, le_word_le_bytes, Z2Nat.id, pow256_u by lia.
      reflexivity.
    + apply bytes_app. split; [apply bytes_firstn, Hb |].
      apply bytes_app. split; [apply le_bytes_bytes | apply bytes_skipn, Hb].
    + exact Hs.
    + rewrite !length_app, le_bytes_length, L1, length_skipn. lia.
  - eexists. split; [apply packWord_le; assumption |].
    rewrite unpackWord_le by assumption.
    f_equal. rewrite <- L2, le_bytes_le_word.
    + symmetry. exact E.
    + rewrite E in Hb. apply bytes_app in Hb. destruct Hb as [_ Hb].
      apply bytes_app in Hb. tauto.
Qed.

Lemma X10_pack_and_unpack_undo_each_other_witness :
  bytes test1.plaintext /\ 0 <= 4
  /\ 4 + u W32 <= Z.of_nat (length test1.plaintext)
  /\ (exists out,
        unpackWord Standard W32 test1.plaintext 4 0x0A0B0C0D = Ok out
        /\ packWord Standard W32 out 4 = Ok (to_word W32 0x0A0B0C0D))
  /\ (exists v,
        packWord Standard W32 test1.plaintext 4 = Ok v
        /\ unpackWord Standard W32 test1.plaintext 4 v = Ok test1.plaintext).
Proof.
  assert (Hb : bytes test1.plaintext) by (repeat constructor; lia).
  assert (Hs : 0 <= 4) by lia.
  assert (Hl : 4 + u W32 <= Z.of_nat (length test1.plaintext))
    by (vm_compute; discriminate).
  exact (conj Hb (conj Hs (conj Hl
    (X10_pack_and_unpack_undo_each_other Standard W32 test1.plaintext 4
       0x0A0B0C0D Hb Hs Hl)))).
Defined.

(** X11 (no access outside the word's place): [packWord] returns only
    when the [u] positions from [start] on exist in the stream, and so
    does [unpackWord], which then leaves the stream at its length. *)
Theorem X11_packing_stays_within_the_bounds :
  forall (sem : shift_sem) (W : width) (stream : list Z) (start word : Z)
         (v : Z) (out : list Z),
  (packWord sem W stream start = Ok v ->
   0 <= start /\ start + u W <= Z.of_nat (length stream))
  /\ (unpackWord sem W stream start word = Ok out ->
      0 <= start /\ start + u W <= Z.of_nat (length stream)
      /\ length out = length stream).
Proof.
  intros sem W stream start word v out. pose proof (u_pos W) as Hu.
  split; intros H.
  - unfold packWord in H.
    pose proof (packWord_loop_reads _ _ _ _ _ _ _ _ H 1 ltac:(lia)) as H1.
    pose proof (packWord_loop_reads _ _ _ _ _ _ _ _ H (u W) ltac:(lia)) as H2.
    lia.
  - unfold unpackWord in H.
    destruct (unpackWord_loop_writes _ _ _ _ _ _ _ H) as [Hlen Hk].
    pose proof (Hk 0 ltac:(lia)). pose proof (Hk (u W - 1) ltac:(lia)).
    repeat split; lia.
Qed.

Lemma X11_packing_stays_within_the_bounds_witness :
  packWord Standard W32 test1.plaintext 4 = Ok 0x77665544
  /\ 0 <= 4 /\ 4 + u W32 <= Z.of_nat (length test1.plaintext).
Proof.
  assert (H : packWord Standard W32 test1.plaintext 4 = Ok 0x77665544)
    by (vm_compute; reflexivity).
  exact (conj H
    (proj1 (X11_packing_stays_within_the_bounds Standard W32
              test1.plaintext 4 0 0x77665544 []) H)).
Defined.

(** X12 (zero bytes at the end of a key): a key of [b] bytes and the
    same key followed by zero bytes, as long as both need the same
    number [c] of words, give [setupS], [encode] and [decode] the same
    outcome on every block, under every reading. *)
Theorem X12_trailing_zero_key_bytes_change_nothing :
  forall (sem : shift_sem) (W : width) (r b : Z) (k fuel : nat)
         (K block : list Z),
  0 <= b -> b + Z.of_nat k < 256 ->
  Z.of_nat (length K) = b -> bytes K ->
  spec_c W b = spec_c W (b + Z.of_nat k) ->
  setupS sem W r (b + Z.of_nat k) (K ++ repeat 0 k) = setupS sem W r b K
  /\ encode sem W r (b + Z.of_nat k) fuel (K ++ repeat 0 k) block
     = encode sem W r b fuel K block
  /\ decode sem W r (b + Z.of_nat k) (K ++ repeat 0 k) block
     = decode sem W r b K block.
Proof.
  intros sem W r b k fuel K block Hb Hk HK HKb Hc.
  pose proof (setupS_padded sem W r b K k Hb Hk HK HKb Hc) as HS.
  assert (Hacc : accepted W (b + Z.of_nat k) (K ++ repeat 0 k) block
                 = accepted W b K block).
  { unfold accepted. f_equal.
    rewrite length_app, repeat_length, Nat2Z.inj_add, HK, !Z.eqb_refl.
    reflexivity. }
  repeat split.
  - exact HS.
  - unfold encode, encodeWords. rewrite Hacc, HS. reflexivity.
  - unfold decode, decodeWords. rewrite Hacc, HS. reflexivity.
Qed.

Lemma X12_trailing_zero_key_bytes_change_nothing_witness :
  0 <= 5 /\ 5 + Z.of_nat 3 < 256
  /\ Z.of_nat (length [1; 2; 3; 4; 5]) = 5 /\ bytes [1; 2; 3; 4; 5]
  /\ spec_c W32 5 = spec_c W32 (5 + Z.of_nat 3)
  /\ setupS Standard W32 12 (5 + Z.of_nat 3) ([1; 2; 3; 4; 5] ++ repeat 0 3)
     = setupS Standard W32 12 5 [1; 2; 3; 4; 5]
  /\ encode Standard W32 12 (5 + Z.of_nat 3) 13
       ([1; 2; 3; 4; 5] ++ repeat 0 3) test1.plaintext
     = encode Standard W32 12 5 13 [1; 2; 3; 4; 5] test1.plaintext
  /\ decode Standard W32 12 (5 + Z.of_nat 3)
       ([1; 2; 3; 4; 5] ++ repeat 0 3) test1.plaintext
     = decode Standard W32 12 5 [1; 2; 3; 4; 5] test1.plaintext.
Proof.
  assert (Hb : 0 <= 5) by lia.
  assert (Hk : 5 + Z.of_nat 3 < 256) by (simpl; lia).
  assert (HK : Z.of_nat (length [1; 2; 3; 4; 5]) = 5) by reflexivity.
  assert (HKb : bytes [1; 2; 3; 4; 5]) by (repeat constructor; lia).
  assert (Hc : spec_c W32 5 = spec_c W32 (5 + Z.of_nat 3)) by reflexivity.
  exact (conj Hb (conj Hk (conj HK (conj HKb (conj Hc
    (X12_trailing_zero_key_bytes_change_nothing Standard W32 12 5 3 13
       [1; 2; 3; 4; 5] test1.plaintext Hb Hk HK HKb Hc)))))).
Defined.

(** X13 (the table [setupS] returns): under every reading, a table
    [setupS] returned for a key of [b] bytes has [t = 2 * (r + 1)]
    entries and each of them is a [w]-bit word. *)
Theorem X13_setupS_returns_t_words :
  forall (sem : shift_sem) (W : width) (r b : Z) (K St : list Z),
  0 <= r < 256 -> 0 <= b < 256 ->
  Z.of_nat (length K) = b -> bytes K ->
  setupS sem W r b K = Ok St ->
  Z.of_nat (length St) = 2 * (r + 1) /\ Forall (word W) St.
Proof.
  intros sem W r b K St Hr Hb HK HKb H.
  rewrite (setupS_returns_spec sem W r b K St Hr Hb HK HKb H).
  split.
  - apply spec_setupS_length. exact Hr.
  - apply spec_setupS_words.
Qed.

Lemma X13_setupS_returns_t_words_witness :
  0 <= 0 < 256 /\ 0 <= 0 < 256
  /\ Z.of_nat (length (@nil Z)) = 0 /\ bytes []
  /\ setupS Standard W16 0 0 [] = Ok [30821; 13300]
  /\ Z.of_nat (length [30821; 13300]) = 2 * (0 + 1)
  /\ Forall (word W16) [30821; 13300].
Proof.
  assert (Hr : 0 <= 0 < 256) by lia.
  assert (HK : Z.of_nat (length (@nil Z)) = 0) by reflexivity.
  assert (HKb : bytes []) by constructor.
  assert (H : setupS Standard W16 0 0 [] = Ok [30821; 13300])
    by (vm_compute; reflexivity).
  exact (conj Hr (conj Hr (conj HK (conj HKb (conj H
    (X13_setupS_returns_t_words Standard W16 0 0 [] [30821; 13300]
       Hr Hr HK HKb H)))))).
Defined.

(** X14 (the L-table): under every reading the first loop of [setupS]
    returns, for a key of [b] bytes, [c] words, word [q] being the
    little-endian value of the key bytes at [q * u .. q * u + u - 1],
    with bytes past the end of the key counted as zero. *)
Theorem X14_L_table_is_the_key_little_endian :
  forall (sem : shift_sem) (W : width) (b : Z) (K : list Z),
  0 <= b < 256 -> Z.of_nat (length K) = b -> bytes K ->
  key_words sem W b K
  = Ok (map (fun q => le_word (slice K (Z.of_nat q * u W) (u W)))
            (seq 0 (Z.to_nat (c W b))))
  /\ c W b = (Z.max b 1 + u W - 1) / u W.
Proof.
  intros sem W b K Hb HK HKb.
  rewrite (key_words_spec W b K Hb HK HKb sem).
  rewrite (c_spec W b Hb). split; reflexivity.
Qed.

Lemma X14_L_table_is_the_key_little_endian_witness :
  0 <= 5 < 256 /\ Z.of_nat (length [1; 2; 3; 4; 5]) = 5
  /\ bytes [1; 2; 3; 4; 5]
  /\ key_words Standard W32 5 [1; 2; 3; 4; 5]
     = Ok (map (fun q => le_word (slice [1; 2; 3; 4; 5]
                                    (Z.of_nat q * u W32) (u W32)))
               (seq 0 (Z.to_nat (c W32 5))))
  /\ c W32 5 = (Z.max 5 1 + u W32 - 1) / u W32.
Proof.
  assert (Hb : 0 <= 5 < 256) by lia.
  assert (HK : Z.of_nat (length [1; 2; 3; 4; 5]) = 5) by reflexivity.
  assert (HKb : bytes [1; 2; 3; 4; 5]) by (repeat constructor; lia).
  exact (conj Hb (conj HK (conj HKb
    (X14_L_table_is_the_key_little_endian Standard W32 5 [1; 2; 3; 4; 5]
       Hb HK HKb)))).
Defined.

(** X15 (constexpr_compare): the comparison never indexes outside its
    arguments, and it returns true exactly when the two hold the same
    elements in the same order. *)
Theorem X15_constexpr_compare_decides_equality :
  forall c1 c2 : list Z,
  exists same,
    constexpr_compare c1 c2 = Ok same /\ (same = true <-> c1 = c2).
Proof.
  intros c1 c2. unfold constexpr_compare.
  destruct (Z.eqb_spec (Z.of_nat (length c1)) (Z.of_nat (length c2)))
    as [E | E]; cbn [negb].
  - apply (compare_loop_decides (length c1) 0 [] c1 [] c2);
      try reflexivity. lia.
  - exists false. split; [reflexivity |].
    split; [discriminate | intros ->; contradiction].
Qed.

(** X16 (round trip on words): [encodeWords] and [decodeWords] are
    public too.  Under every reading, what [encodeWords] returned for
    two words are two words, and [decodeWords] under the same key takes
    them back to the two it was given. *)
Theorem X16_decodeWords_undoes_encodeWords :
  forall (sem : shift_sem) (W : width) (r b : Z) (fuel : nat)
         (K : list Z) (A B A' B' : Z),
  0 <= r < 256 -> word W A -> word W B ->
  encodeWords sem W r b fuel K A B = Ok (A', B') ->
  decodeWords sem W r b K A' B' = Ok (A, B) /\ word W A' /\ word W B'.
Proof.
  intros sem W r b fuel K A B A' B' Hr HA HB H. split.
  - exact (decodeWords_encodeWords sem W r Hr b fuel K A B A' B' HA HB H).
  - exact (encodeWords_word sem W r b fuel K A B A' B' H).
Qed.

Lemma X16_decodeWords_undoes_encodeWords_witness :
  0 <= 1 < 256 /\ word W16 1 /\ word W16 2
  /\ encodeWords Standard W16 1 0 2 [] 1 2 = Ok (16373, 3621)
  /\ decodeWords Standard W16 1 0 [] 16373 3621 = Ok (1, 2)
  /\ word W16 16373 /\ word W16 3621.
Proof.
  assert (Hr : 0 <= 1 < 256) by lia.
  assert (HA : word W16 1) by (unfold word; simpl; lia).
  assert (HB : word W16 2) by (unfold word; simpl; lia).
  assert (H : encodeWords Standard W16 1 0 2 [] 1 2 = Ok (16373, 3621))
    by (vm_compute; reflexivity).
  exact (conj Hr (conj HA (conj HB (conj H
    (X16_decodeWords_undoes_encodeWords Standard W16 1 0 2 [] 1 2
       16373 3621 Hr HA HB H))))).
Defined.

Lemma encode_needs_setupS (sem : shift_sem) (W : width) (r b : Z)
    (fuel : nat) (K plaintext : list Z) :
  returned (setupS sem W r b K) = None ->
  returned (encode sem W r b fuel K plaintext) = None.
Proof.
  intros H. unfold encode.
  destruct (accepted W b K plaintext); [| reflexivity].
  destruct (packWord sem W plaintext 0); try reflexivity. cbn [bind].
  destruct (packWord sem W plaintext (u W)); try reflexivity. cbn [bind].
  apply returned_bind_None. unfold encodeWords.
  apply returned_bind_None. exact H.
Qed.

(** X17 (a block that rotates by zero, for every key): with 32-bit or
    64-bit words and at least one round, every key of [b] bytes has a
    block of [2u] bytes on which [encode], read by the language rule,
    does not return: if the key schedule goes through, the block whose
    second word is [- S[1]] makes the first round rotate by zero, that
    is shift by the full width. *)
Theorem X17_every_key_has_a_block_that_shifts_by_the_width :
  forall (W : width) (r b : Z) (K : list Z),
  W = W32 \/ W = W64 -> 1 <= r < 256 -> 0 <= b < 256 ->
  Z.of_nat (length K) = b -> bytes K ->
  exists block,
    Z.of_nat (length block) = u W * 2 /\ bytes block
    /\ forall fuel : nat,
         returned (encode Standard W r b fuel K block) = None.
Proof.
  intros W r b K HW Hr Hb HK HKb. pose proof (u_pos W) as Hu.
  assert (wide : w W = WordT.promoted W)
    by (destruct HW as [-> | ->]; reflexivity).
  assert (Hr' : 0 <= r < 256) by lia.
  destruct (setupS Standard W r b K) as [St | | |] eqn:HS.
  2-4: exists (repeat 0 (Z.to_nat (u W * 2)));
       (split; [rewrite repeat_length; lia |]);
       (split; [apply bytes_repeat_0 |]);
       intros fuel; apply encode_needs_setupS; rewrite HS; reflexivity.
  pose proof (setupS_returns_spec Standard W r b K St Hr' Hb HK HKb HS) as E.
  pose proof (spec_setupS_length W r b K Hr') as Hlen. rewrite <- E in Hlen.
  unfold t in Hlen.
  set (s1 := nth (Z.to_nat 1) St 0).
  set (l1 := repeat 0 (Z.to_nat (u W))).
  set (l2 := le_bytes (Z.to_nat (u W)) (to_word W (- s1))).
  assert (L1 : length l1 = Z.to_nat (u W)) by apply repeat_length.
  assert (L2 : length l2 = Z.to_nat (u W)) by apply le_bytes_length.
  assert (Hbl : bytes (l1 ++ l2))
    by (apply bytes_app; split; [apply bytes_repeat_0 | apply le_bytes_bytes]).
  exists (l1 ++ l2). split; [rewrite length_app; lia |].
  split; [exact Hbl |].
  intros fuel. rewrite encode_words by exact Hbl.
  replace (accepted W b K (l1 ++ l2)) with true
    by (symmetry; apply accepted_true; rewrite length_app; lia).
  apply returned_bind_None.
  destruct (slices_of_halves W l1 l2 L1 L2) as [S1 S2]. rewrite S1, S2.
  unfold l1 at 1. rewrite (le_word_zeros _ (zeros_repeat _)).
  unfold l2 at 1. rewrite le_word_le_bytes_word by apply to_word_range.
  unfold encodeWords. rewrite HS. cbn [bind].
  rewrite !idx_nth by lia. cbn [bind]. fold s1.
  destruct fuel as [| fuel]; [reflexivity |].
  cbn [encode_rounds].
  replace (1 <=? r) with true by (symmetry; apply Z.leb_le; lia).
  replace (to_word W (to_word W (- s1) + s1)) with 0.
  - rewrite (left_shift_standard_zero W wide) by apply Zmod_0_l.
    reflexivity.
  - unfold to_word. rewrite Zplus_mod_idemp_l.
    replace (- s1 + s1) with 0 by lia. symmetry. apply Z.mod_0_l.
    pose proof (pow_w_pos W). lia.
Qed.

Lemma X17_every_key_has_a_block_that_shifts_by_the_width_witness :
  (W32 = W32 \/ W32 = W64) /\ 1 <= 2 < 256 /\ 0 <= 1 < 256
  /\ Z.of_nat (length [9]) = 1 /\ bytes [9]
  /\ exists block,
       Z.of_nat (length block) = u W32 * 2 /\ bytes block
       /\ forall fuel : nat,
            returned (encode Standard W32 2 1 fuel [9] block) = None.
Proof.
  assert (HW : W32 = W32 \/ W32 = W64) by (left; reflexivity).
  assert (Hr : 1 <= 2 < 256) by lia.
  assert (Hb : 0 <= 1 < 256) by lia.
  assert (HK : Z.of_nat (length [9]) = 1) by reflexivity.
  assert (HKb : bytes [9]) by (repeat constructor; lia).
  exact (conj HW (conj Hr (conj Hb (conj HK (conj HKb
    (X17_every_key_has_a_block_that_shifts_by_the_width W32 2 1 [9]
       HW Hr Hb HK HKb)))))).
Defined.



(** X19 (what a rotation looks at): under every reading [left_shift]
    and [right_shift] see their operand modulo [2^w] and their amount
    modulo [w]: adding a multiple of [2^w] to the one or a multiple of
    [w] to the other changes nothing. *)
Theorem X19_rotations_mask_operand_and_amount :
  forall (sem : shift_sem) (W : width) (x y j k : Z),
  left_shift sem W (x + j * 2 ^ w W) (y + k * w W) = left_shift sem W x y
  /\ right_shift sem W (x + j * 2 ^ w W) (y + k * w W)
     = right_shift sem W x y.
Proof.
  intros sem W x y j k.
  pose proof (w_pos W) as Hw. pose proof (pow_w_pos W) as Hp.
  assert (Hx : to_word W (x + j * 2 ^ w W) = to_word W x)
    by (unfold to_word; apply Z.mod_add; lia).
  assert (Hy : Z.land (to_word W (y + k * w W)) (w W - 1)
               = Z.land (to_word W y) (w W - 1)).
  { rewrite !land_w_mask, !amount_of_word. apply Z.mod_add. lia. }
  unfold left_shift, right_shift. rewrite Hx, Hy. split; reflexivity.
Qed.
